(** * GameTree: an immutable game tree with memoised lookup

    A shallow embedding of [src/GameTree.js].  The node graph under a
    tree's root is an immutable value; the instance carries lazily filled
    caches, which the read operations thread through as explicit state.

    Conventions of the embedding:
    - identifiers are the numbers the default generator issues, as [Z];
      a nullable identifier ([null]/[undefined]) is an [option Z];
    - the JS objects used as maps ([_nodeCache], [_idAliases], [currents])
      are [gmap]s keyed by identifier; a key bound to [None] in
      [_nodeCache] is the known-absent marker;
    - a call that can recurse without bound takes [fuel], the remaining
      call depth or loop iterations; [OutOfFuel] stands for a run that
      did not finish within it;
    - a generator is modelled by the [trace] of a complete run;
    - [===] on two nodes of one tree is equality of the node values. *)

From stdpp Require Import gmap strings list fin_maps pretty.
From Stdlib Require Import ZArith.

Open Scope Z_scope.

(** ** Data model *)

(** The payload: property name to list of values.  The tree never looks
    inside it. *)
Definition Data : Type := list (string * list string).

Unset Elimination Schemes.
Inductive Node : Type := mkNode {
  id : Z;
  data : Data;
  parentId : option Z;
  children : list Node
}.
Set Elimination Schemes.

Record GameTree : Type := mkGameTree {
  root : Node;
  _nodeCache : gmap Z (option Node);
  _idAliases : gmap Z Z;
  _heightCache : option Z;
  _structureHashCache : option Z
}.

(** [new GameTree({root})] for a complete root node: empty caches. *)
Definition new_GameTree (r : Node) : GameTree :=
  mkGameTree r ∅ ∅ None None.

Definition set_nodeCache (c : gmap Z (option Node)) (t : GameTree) : GameTree :=
  mkGameTree (root t) c (_idAliases t) (_heightCache t) (_structureHashCache t).

Definition set_structureHashCache (h : option Z) (t : GameTree) : GameTree :=
  mkGameTree (root t) (_nodeCache t) (_idAliases t) (_heightCache t) h.

(** ** Outcomes of a call *)

Inductive exn : Type :=
| TypeError      (* property access on null or undefined *)
| InvalidStep.   (* Error('Invalid value for step, only -1 or 1 allowed') *)

Inductive result (A : Type) : Type :=
| Ok (a : A)
| Throw (e : exn)
| OutOfFuel.
Arguments Ok {A} a.
Arguments Throw {A} e.
Arguments OutOfFuel {A}.

(** A method of the tree: reads the instance, may fill its caches. *)
Definition M (A : Type) : Type := GameTree → result A * GameTree.

Definition ret {A} (a : A) : M A := λ t, (Ok a, t).
Definition throw {A} (e : exn) : M A := λ t, (Throw e, t).
Definition out_of_fuel {A} : M A := λ t, (OutOfFuel, t).

Definition bind {A B} (m : M A) (k : A → M B) : M B :=
  λ t, match m t with
       | (Ok a, t') => k a t'
       | (Throw e, t') => (Throw e, t')
       | (OutOfFuel, t') => (OutOfFuel, t')
       end.

Notation "'let*' x ':=' m 'in' k" := (bind m (λ x, k))
  (at level 10, x name, m at level 100, k at level 200).

(** The run of a generator, consumed to its end. *)
Inductive trace : Type :=
| Done
| Yield (n : Node) (rest : trace)
| Raise (e : exn)
| Stuck.

Fixpoint yielded (tr : trace) : list Node :=
  match tr with
  | Yield n rest => n :: yielded rest
  | _ => []
  end.

Fixpoint completion (tr : trace) : result unit :=
  match tr with
  | Done => Ok tt
  | Yield _ rest => completion rest
  | Raise e => Throw e
  | Stuck => OutOfFuel
  end.

Definition G : Type := GameTree → trace * GameTree.

(** [yield n; rest] *)
Definition yield_then (n : Node) (rest : G) : G :=
  λ t, let '(tr, t') := rest t in (Yield n tr, t').

(** Run a method, then continue the generator with its value. *)
Definition gbind {A} (m : M A) (k : A → G) : G :=
  λ t, match m t with
       | (Ok a, t') => k a t'
       | (Throw e, t') => (Raise e, t')
       | (OutOfFuel, t') => (Stuck, t')
       end.

Notation "'gen*' x ':=' m 'in' k" := (gbind m (λ x, k))
  (at level 10, x name, m at level 100, k at level 200).

(** [a === b] on nodes. *)
Fixpoint Node_eqb (a b : Node) {struct a} : bool :=
  match a, b with
  | mkNode i d p cs, mkNode i' d' p' cs' =>
      bool_decide (i = i') && bool_decide (d = d') && bool_decide (p = p')
      && (fix all2 (l l' : list Node) : bool :=
            match l, l' with
            | [], [] => true
            | x :: l, y :: l' => Node_eqb x y && all2 l l'
            | _, _ => false
            end) cs cs'
  end.

(** ** get *)

(** The closure [inner] of [get]: depth-first search for [i] that
    records every node it visits. *)
Fixpoint inner (i : Z) (node : Node) (cache : gmap Z (option Node)) {struct node}
  : option Node * gmap Z (option Node) :=
  match node with
  | mkNode nid _ _ cs =>
      let cache := <[nid := Some node]> cache in
      if decide (nid = i) then (Some node, cache)
      else
        (fix for_children (cs : list Node) (cache : gmap Z (option Node)) :=
           match cs with
           | [] => (None, cache)
           | child :: cs' =>
               match inner i child cache with
               | (Some result, cache') => (Some result, cache')
               | (None, cache') => for_children cs' cache'
               end
           end) cs cache
  end.

(** [for (let child of node.children) this._nodeCache[child.id] = child] *)
Definition cache_children (cs : list Node) (cache : gmap Z (option Node))
  : gmap Z (option Node) :=
  foldl (λ c child, <[id child := Some child]> c) cache cs.

Fixpoint get (fuel : nat) (i : option Z) : M (option Node) :=
  λ t,
  match i with
  | None => (Ok None, t)
  | Some i =>
      match _idAliases t !! i with
      | Some a =>
          match fuel with
          | O => (OutOfFuel, t)
          | S fuel' => get fuel' (Some a) t
          end
      | None =>
          let '(node, cache) :=
            match _nodeCache t !! i with
            | Some node => (node, _nodeCache t)
            | None => inner i (root t) (_nodeCache t)
            end in
          match node with
          | None => (Ok None, set_nodeCache (<[i := None]> cache) t)
          | Some node =>
              (Ok (Some node), set_nodeCache (cache_children (children node) cache) t)
          end
      end
  end.

(** ** getSequence *)

Fixpoint getSequence (fuel : nat) (i : option Z) : G :=
  match fuel with
  | O => λ t, (Stuck, t)
  | S fuel' =>
      gen* node := get fuel' i in
      match node with
      | None => λ t, (Done, t)
      | Some node =>
          yield_then node
            match children node with
            | [child] => getSequence fuel' (Some (id child))
            | _ => λ t, (Done, t)
            end
      end
  end.

(** ** navigate *)

(** [currents] is [None] where the source passes no third argument. *)
Fixpoint navigate (fuel : nat) (i : option Z) (step : Z)
    (currents : option (gmap Z Z)) : M (option Node) :=
  match fuel with
  | O => out_of_fuel
  | S fuel' =>
      let* node := get fuel' i in
      match node with
      | None => ret None
      | Some node =>
          if decide (step = 0) then ret (Some node)
          else if decide (step < 0) then navigate fuel' (parentId node) (step + 1) None
          else
            match currents with
            | None => throw TypeError
            | Some c =>
                let nextId :=
                  match c !! id node with
                  | Some next => Some next
                  | None =>
                      match children node with
                      | child :: _ => Some (id child)
                      | [] => None
                      end
                  end in
                match nextId with
                | None => ret None
                | Some _ => navigate fuel' nextId (step - 1) currents
                end
            end
      end
  end.

(** ** listNodes, getSection, getLevel *)

Fixpoint listNodes_inner (node : Node) : list Node :=
  match node with
  | mkNode _ _ _ cs =>
      node :: (fix for_children (cs : list Node) : list Node :=
                 match cs with
                 | [] => []
                 | child :: cs' => listNodes_inner child ++ for_children cs'
                 end) cs
  end.

Definition listNodes (t : GameTree) : list Node := listNodes_inner (root t).

(** [getSection] at a level already known to be a natural number. *)
Fixpoint getSection_nat (r : Node) (level : nat) : list Node :=
  match level with
  | O => [r]
  | S level' => flat_map children (getSection_nat r level')
  end.

(** [level] may be [null]: then neither [level < 0] nor [level === 0]
    holds and the recursion continues at [null - 1 = -1]. *)
Definition getSection (t : GameTree) (level : option Z) : list Node :=
  match level with
  | None => []
  | Some l => if decide (l < 0) then [] else getSection_nat (root t) (Z.to_nat l)
  end.

(** [x + 1] where [x] may be [null] (which counts as 0). *)
Definition or_zero (x : option Z) : Z := default 0 x.

Fixpoint getLevel (fuel : nat) (i : option Z) : M (option Z) :=
  match fuel with
  | O => out_of_fuel
  | S fuel' => λ t,
      if decide (i = Some (id (root t))) then (Ok (Some 0), t)
      else
        (let* node := get fuel' i in
         match node with
         | None => ret None
         | Some node =>
             let* l := getLevel fuel' (parentId node) in
             ret (Some (or_zero l + 1))
         end) t
  end.

(** ** listNodesVertically, listCurrentNodes, listMainNodes *)

(** [while (node != null) { yield node; node = this.navigate(...) }] *)
Fixpoint vertical_loop (fuel : nat) (node : option Node) (step : Z)
    (currents : option (gmap Z Z)) : G :=
  match fuel with
  | O => λ t, (Stuck, t)
  | S fuel' =>
      match node with
      | None => λ t, (Done, t)
      | Some node =>
          yield_then node
            (gen* next := navigate fuel' (Some (id node)) step currents in
             vertical_loop fuel' next step currents)
      end
  end.

Definition listNodesVertically (fuel : nat) (startId : option Z) (step : Z)
    (currents : option (gmap Z Z)) : G :=
  if decide (Z.abs step ≠ 1) then λ t, (Raise InvalidStep, t)
  else
    gen* node := get fuel startId in
    vertical_loop fuel node step currents.

Definition listCurrentNodes (fuel : nat) (currents : option (gmap Z Z)) : G :=
  λ t, listNodesVertically fuel (Some (id (root t))) 1 currents t.

Definition listMainNodes (fuel : nat) : G :=
  listCurrentNodes fuel (Some ∅).

(** ** listNodesHorizontally *)

(** [section.findIndex(node => node.id === startId)] *)
Fixpoint findIndex (startId : option Z) (section : list Node) : Z :=
  match section with
  | [] => -1
  | node :: rest =>
      if decide (Some (id node) = startId) then 0
      else
        let k := findIndex startId rest in
        if decide (k < 0) then -1 else k + 1
  end.

(** [section[index]], [undefined] outside the array. *)
Definition at_index (section : list Node) (index : Z) : option Node :=
  if decide (0 ≤ index) then section !! Z.to_nat index else None.

(** The inner loop: [while (0 <= index && index < section.length)]. *)
Fixpoint row_loop (fuel : nat) (section : list Node) (index step : Z)
    (after : trace) : trace :=
  match fuel with
  | O => Stuck
  | S fuel' =>
      match (if decide (0 ≤ index ∧ index < Z.of_nat (length section))
             then at_index section index else None) with
      | Some node => Yield node (row_loop fuel' section (index + step) step after)
      | None => after
      end
  end.

(** The outer loop: [while (section[index] != null)]. *)
Fixpoint section_loop (fuel : nat) (t : GameTree) (section : list Node)
    (index : Z) (level : option Z) (step : Z) : trace :=
  match fuel with
  | O => Stuck
  | S fuel' =>
      match at_index section index with
      | None => Done
      | Some _ =>
          let level' := Some (or_zero level + step) in
          let section' :=
            if decide (step > 0) then concat (map children section)
            else getSection t level' in
          let index' :=
            if decide (step > 0) then 0 else Z.of_nat (length section') - 1 in
          row_loop fuel' section index step
            (section_loop fuel' t section' index' level' step)
      end
  end.

Definition listNodesHorizontally (fuel : nat) (startId : option Z) (step : Z) : G :=
  if decide (Z.abs step ≠ 1) then λ t, (Raise InvalidStep, t)
  else
    gen* level := getLevel fuel startId in
    λ t,
      let section := getSection t level in
      let index := findIndex startId section in
      (section_loop fuel t section index level step, t).

(** ** getStructureHash *)

(** ToInt32 and ToUint32 of an integer. *)
Definition toInt32 (x : Z) : Z := (x + 2 ^ 31) mod 2 ^ 32 - 2 ^ 31.
Definition toUint32 (x : Z) : Z := x mod 2 ^ 32.

Definition charCode (a : Ascii.ascii) : Z := Z.of_N (Ascii.N_of_ascii a).

(** [hash(str)], on the accumulator [result] the closure keeps. *)
Fixpoint hash (str : string) (result : Z) : Z :=
  match str with
  | EmptyString => result
  | String a rest =>
      hash rest (toInt32 (Z.lxor (toInt32 (result * 33)) (toInt32 (charCode a))))
  end.

(** [JSON.stringify] of an integer identifier: its decimal numeral. *)
Definition JSON_stringify (i : Z) : string := pretty i.

Fixpoint hash_inner (node : Node) (result : Z) {struct node} : Z :=
  match node with
  | mkNode nid _ _ cs =>
      let result := hash ("[" +:+ JSON_stringify nid +:+ ",") result in
      let result :=
        (fix forEach (cs : list Node) (result : Z) : Z :=
           match cs with
           | [] => result
           | child :: cs' => forEach cs' (hash_inner child result)
           end) cs result in
      hash "]" result
  end.

Definition getStructureHash : M string :=
  λ t,
    let t :=
      match _structureHashCache t with
      | None => set_structureHashCache (Some (hash_inner (root t) 5381)) t
      | Some _ => t
      end in
    (Ok (pretty (toUint32 (or_zero (_structureHashCache t)))), t).

(** ** onCurrentLine, onMainLine *)

Fixpoint onCurrentLine (fuel : nat) (i : option Z) (currents : gmap Z Z) : M bool :=
  match fuel with
  | O => out_of_fuel
  | S fuel' =>
      let* node := get fuel' i in
      match node with
      | None => throw TypeError                (* let {parentId} = node *)
      | Some node =>
          match parentId node with
          | None => ret true
          | Some pid =>
              let* selected :=
                match currents !! pid with
                | Some c => ret (bool_decide (id node = c))
                | None =>
                    let* parent := get fuel' (Some pid) in
                    match parent with
                    | None => throw TypeError  (* this.get(parentId).children *)
                    | Some parent =>
                        ret match children parent with
                            | first :: _ => Node_eqb first node
                            | [] => false
                            end
                    end
                end in
              if selected : bool then onCurrentLine fuel' (Some pid) currents
              else ret false
          end
      end
  end.

Definition onMainLine (fuel : nat) (i : option Z) : M bool :=
  onCurrentLine fuel i ∅.

(** ** mutate

    [mutate] decides by object identity, so it is modelled on a heap of
    objects addressed by references.  The builder ([Draft]) and the
    identifier generator are code outside this file: they enter as the
    parameters [Draft_new] (the constructor [new Draft(tree)]) and
    [call_getId] (a call of [getId]); the edit callback is an argument. *)

Module Heap.

Definition ref : Type := positive.

Record GameTreeObj : Type := mkGameTreeObj {
  getId : ref;
  merger : ref;
  root : ref;
  _nodeCache : ref;
  _idAliases : ref;
  _heightCache : option Z;
  _structureHashCache : option Z
}.

Record DraftObj : Type := mkDraftObj {
  draft_root : ref;
  _passOnNodeCache : bool;
  draft_nodeCache : ref;
  draft_idAliases : ref;
  draft_heightCache : option Z;
  draft_structureHashCache : option Z
}.

Record NodeObj : Type := mkNodeObj {
  id : option Z;
  data : option ref;
  parentId : option Z;
  children : option ref
}.

Inductive cell : Type :=
| CTree (o : GameTreeObj)
| CDraft (d : DraftObj)
| CNode (n : NodeObj)
| CObject.       (* any other object: a map, an array, a closure *)

Definition heap : Type := gmap ref cell.

Definition alloc (c : cell) (h : heap) : ref * heap :=
  let r := fresh (dom h) in (r, <[r := c]> h).

Section WithCollaborators.
Variable Draft_new : ref → heap → ref * heap.
Variable call_getId : ref → heap → option Z * heap.

(** The constructor, called with [getId], [merger] and a non-null
    [root]: it completes the root object in place. *)
Definition GameTree_new (getId merger root : ref) (h : heap) : option (ref * heap) :=
  match h !! root with
  | Some (CNode n) =>
      let '(i, h) :=
        match id n with
        | None => call_getId getId h
        | Some i => (Some i, h)
        end in
      let '(d, h) :=
        match data n with
        | None => let '(d, h) := alloc CObject h in (Some d, h)
        | Some d => (Some d, h)
        end in
      let '(cs, h) :=
        match children n with
        | None => let '(cs, h) := alloc CObject h in (Some cs, h)
        | Some cs => (Some cs, h)
        end in
      let h := <[root := CNode (mkNodeObj i d (parentId n) cs)]> h in
      let '(cache, h) := alloc CObject h in
      let '(aliases, h) := alloc CObject h in
      Some (alloc (CTree (mkGameTreeObj getId merger root cache aliases None None)) h)
  | _ => None
  end.

(** [None]: a step the model does not cover (a reference that is not
    the expected kind of object). *)
Definition mutate (this : ref) (mutator : ref → heap → heap) (h : heap)
  : option (ref * heap) :=
  let '(draft, h) := Draft_new this h in
  let h := mutator draft h in
  match h !! draft, h !! this with
  | Some (CDraft d), Some (CTree self) =>
      if decide (draft_root d = root self) then Some (this, h)
      else
        match GameTree_new (getId self) (merger self) (draft_root d) h with
        | Some (tree, h) =>
            match h !! tree with
            | Some (CTree o) =>
                let o :=
                  mkGameTreeObj (getId o) (merger o) (root o)
                    (if _passOnNodeCache d then draft_nodeCache d else _nodeCache o)
                    (draft_idAliases d)
                    (draft_heightCache d)
                    (draft_structureHashCache d) in
                Some (tree, <[tree := CTree o]> h)
            | _ => None
            end
        | None => None
        end
  | _, _ => None
  end.
End WithCollaborators.

(** A builder constructor, an identifier generator, a heap and two edit
    callbacks to run [mutate] on.  The heap holds a tree at reference 1
    whose root is the node at reference 2. *)

Definition sample_Draft_new (this : ref) (h : heap) : ref * heap :=
  match h !! this with
  | Some (CTree o) =>
      let '(cache, h) := alloc CObject h in
      alloc (CDraft (mkDraftObj (root o) true cache (_idAliases o)
                       (_heightCache o) (_structureHashCache o))) h
  | _ => alloc CObject h
  end.

Definition sample_getId (g : ref) (h : heap) : option Z * heap := (Some 100, h).

Definition sample_heap : heap :=
  list_to_map
    [(1%positive, CTree (mkGameTreeObj 5%positive 6%positive 2%positive
                             3%positive 4%positive (Some 1) None));
     (2%positive, CNode (mkNodeObj (Some 0) (Some 7%positive) None (Some 8%positive)));
     (3%positive, CObject); (4%positive, CObject); (5%positive, CObject);
     (6%positive, CObject); (7%positive, CObject); (8%positive, CObject)].

(** A callback that edits nothing. *)
Definition no_edit (draft : ref) (h : heap) : heap := h.

(** A callback after which the draft has a new root object. *)
Definition replace_root (draft : ref) (h : heap) : heap :=
  match h !! draft with
  | Some (CDraft d) =>
      let '(r, h) := alloc (CNode (mkNodeObj (Some 0) None None None)) h in
      <[draft := CDraft (mkDraftObj r false (draft_nodeCache d) (draft_idAliases d)
                           None None)]> h
  | _ => h
  end.

End Heap.

(** ** What the operations are measured against

    Definitions over the tree as a structure, used to state the
    properties; none of them is part of the program. *)

Definition ids (r : Node) : list Z := map id (listNodes_inner r).

(** The first node with identifier [i], in depth-first order. *)
Definition find_node (i : Z) (r : Node) : option Node :=
  List.find (λ n, bool_decide (id n = i)) (listNodes_inner r).

(** The loop over the children inside [inner], on its own. *)
Fixpoint inner_children (i : Z) (cs : list Node) (cache : gmap Z (option Node))
  : option Node * gmap Z (option Node) :=
  match cs with
  | [] => (None, cache)
  | child :: cs' =>
      match inner i child cache with
      | (Some result, cache') => (Some result, cache')
      | (None, cache') => inner_children i cs' cache'
      end
  end.

(** What a search adds to the index: nodes of the searched part, each
    under its own identifier. *)
Definition adds_only (seen : list Node) (c c' : gmap Z (option Node)) : Prop :=
  ∀ k v, c' !! k = Some v →
    c !! k = Some v ∨ ∃ m, v = Some m ∧ m ∈ seen ∧ id m = k.

(** Follow the alias table from [i], at most [fuel] hops. *)
Fixpoint resolve (fuel : nat) (al : gmap Z Z) (i : Z) : option Z :=
  match al !! i with
  | Some a =>
      match fuel with
      | O => None
      | S fuel' => resolve fuel' al a
      end
  | None => Some i
  end.

(** The node an identifier resolves to. *)
Definition lookup_node (fuel : nat) (t : GameTree) (i : option Z) : option Node :=
  match i with
  | None => None
  | Some i =>
      match resolve fuel (_idAliases t) i with
      | Some r => find_node r (root t)
      | None => None
      end
  end.

(** Every alias chain ends within [D] hops. *)
Definition aliases_within (D : nat) (t : GameTree) : Prop :=
  ∀ i, is_Some (resolve D (_idAliases t) i).

(** Every child names its parent. *)
Definition links_ok (r : Node) : Prop :=
  Forall (λ n, Forall (λ c, parentId c = Some (id n)) (children n)) (listNodes_inner r).

(** The invariants of the data model: identifiers are unique, parent
    links are consistent, the root has no parent, and an alias is a
    former identifier, not the identifier of a node of the tree. *)
Record wf_tree (t : GameTree) : Prop := mk_wf_tree {
  wf_ids : NoDup (ids (root t));
  wf_links : links_ok (root t);
  wf_root : parentId (root t) = None;
  wf_aliases : Forall (λ k, _idAliases t !! k = None) (ids (root t))
}.

(** The index holds only what a search would find. *)
Definition cache_ok (t : GameTree) : Prop :=
  map_Forall (λ k v, v = find_node k (root t)) (_nodeCache t).

(** The same tree, with possibly more of its index filled in. *)
Definition same_tree (t t' : GameTree) : Prop :=
  root t' = root t ∧ _idAliases t' = _idAliases t
  ∧ _heightCache t' = _heightCache t
  ∧ _structureHashCache t' = _structureHashCache t.

(** A method returns [v], leaving the tree as it was up to its index. *)
Definition returns {A} (m : M A) (t : GameTree) (r : result A) : Prop :=
  ∃ t', m t = (r, t') ∧ same_tree t t' ∧ cache_ok t'.

Definition yields (g : G) (t : GameTree) (tr : trace) : Prop :=
  ∃ t', g t = (tr, t') ∧ same_tree t t' ∧ cache_ok t'.

(** The state of a fresh tree after a series of lookups. *)
Fixpoint after_lookups (fuel : nat) (queries : list (option Z)) (t : GameTree) : GameTree :=
  match queries with
  | [] => t
  | q :: rest => after_lookups fuel rest (snd (get fuel q t))
  end.

(** [n] lies [d] edges below the root. *)
Inductive at_depth (r : Node) : nat → Node → Prop :=
| at_depth_root : at_depth r 0 r
| at_depth_child d p c :
    at_depth r d p → c ∈ children p → at_depth r (S d) c.

(** The main line: the root, then the index-0 child at each node. *)
Fixpoint main_line (n : Node) : list Node :=
  match n with
  | mkNode _ _ _ cs =>
      n :: match cs with
           | first :: _ => main_line first
           | [] => []
           end
  end.

(** The node whose children contain [n]. *)
Definition parent_in (r n : Node) : option Node :=
  List.find (λ p, existsb (Node_eqb n) (children p)) (listNodes_inner r).

(** [k] levels up the parent chain. *)
Fixpoint ancestor (r : Node) (k : nat) (n : Node) : option Node :=
  match k with
  | O => Some n
  | S k' =>
      match parent_in r n with
      | Some p => ancestor r k' p
      | None => None
      end
  end.

(** One edge down: the selected child, else the first child. *)
Definition next_node (D : nat) (t : GameTree) (currents : gmap Z Z) (n : Node)
  : option Node :=
  match currents !! id n with
  | Some c => lookup_node D t (Some c)
  | None => head (children n)
  end.

Fixpoint descend (D : nat) (t : GameTree) (currents : gmap Z Z) (k : nat) (n : Node)
  : option Node :=
  match k with
  | O => Some n
  | S k' =>
      match next_node D t currents n with
      | Some m => descend D t currents k' m
      | None => None
      end
  end.

(** The single-child chain from [n]: it runs through only children and
    ends with the first node that has no child or more than one. *)
Inductive single_child_chain : Node → list Node → Prop :=
| chain_end n : length (children n) ≠ 1%nat → single_child_chain n [n]
| chain_step n c l :
    children n = [c] → single_child_chain c l → single_child_chain n (n :: l).

(** Same shape and same identifiers, node by node in child order;
    payloads and parent links are not compared. *)
Fixpoint same_shape (a b : Node) {struct a} : Prop :=
  match a, b with
  | mkNode i _ _ cs, mkNode i' _ _ cs' =>
      i = i'
      ∧ (fix all2 (l l' : list Node) : Prop :=
           match l, l' with
           | [], [] => True
           | x :: l, y :: l' => same_shape x y ∧ all2 l l'
           | _, _ => False
           end) cs cs'
  end.

(** The run that yields the nodes of [l] in order and then ends. *)
Definition trace_of (l : list Node) : trace := foldr Yield Done l.

(** A memoised structure hash is the one computed from the root. *)
Definition hash_cache_ok (t : GameTree) : Prop :=
  ∀ h, _structureHashCache t = Some h → h = hash_inner (root t) 5381.

(** A trace that ends by raising [e]. *)
Definition raises (e : exn) (tr : trace) : Prop := completion tr = Throw e.

(** ** The tree of the scenario: R(0) with children A(1) and B(2);
    A has the child C(3). *)

Definition node_C : Node := mkNode 3 [("B", ["dd"])] (Some 1) [].
Definition node_A : Node := mkNode 1 [("B", ["pd"])] (Some 0) [node_C].
Definition node_B : Node := mkNode 2 [("B", ["dp"])] (Some 0) [].
Definition node_R : Node := mkNode 0 [] None [node_A; node_B].
Definition scenario : GameTree := new_GameTree node_R.

(** The scenario with other payloads. *)
Definition scenario_repainted : GameTree :=
  new_GameTree
    (mkNode 0 [("GM", ["1"])] None
       [mkNode 1 [] (Some 0) [mkNode 3 [("C", ["x"])] (Some 1) []];
        mkNode 2 [("W", ["aa"])] (Some 0) []]).

(** The scenario with a stale identifier 7 redirected to A. *)
Definition scenario_alias : GameTree := mkGameTree node_R ∅ {[7 := 1]} None None.

(** The scenario with a stale identifier 7 redirected to the root. *)
Definition scenario_root_alias : GameTree := mkGameTree node_R ∅ {[7 := 0]} None None.

(** ** getCurrentHeight, getHeight, toJSON *)

Definition set_heightCache (h : option Z) (t : GameTree) : GameTree :=
  mkGameTree (root t) (_nodeCache t) (_idAliases t) h (_structureHashCache t).

(** The closure [inner] of [getCurrentHeight] on a node that is not
    null; [inner(undefined)] is 0, written where the child is missing:
    no first child, or no child with the selected identifier
    ([children.find] gives the first one). *)
Fixpoint getCurrentHeight_inner (currents : gmap Z Z) (node : Node) {struct node} : Z :=
  match node with
  | mkNode nid _ _ cs =>
      1 + match currents !! nid with
          | None =>
              match cs with
              | child :: _ => getCurrentHeight_inner currents child
              | [] => 0
              end
          | Some selected =>
              (fix find (cs : list Node) : Z :=
                 match cs with
                 | [] => 0
                 | child :: cs' =>
                     if decide (id child = selected)
                     then getCurrentHeight_inner currents child
                     else find cs'
                 end) cs
          end
  end.

Definition getCurrentHeight (currents : gmap Z Z) (t : GameTree) : Z :=
  getCurrentHeight_inner currents (root t).

(** [1 + Math.max(...node.children.map(inner), 0)] *)
Fixpoint getHeight_inner (node : Node) : Z :=
  match node with
  | mkNode _ _ _ cs =>
      1 + (fix max_of (cs : list Node) : Z :=
             match cs with
             | [] => 0
             | child :: cs' => Z.max (getHeight_inner child) (max_of cs')
             end) cs
  end.

Definition getHeight : M Z :=
  λ t,
    match _heightCache t with
    | None =>
        let h := getHeight_inner (root t) in
        (Ok h, set_heightCache (Some h) t)
    | Some h => (Ok h, t)
    end.

Definition toJSON (t : GameTree) : Node := root t.

(** ** Further measures *)

(** A memoised height is the one computed from the root. *)
Definition height_cache_ok (t : GameTree) : Prop :=
  ∀ h, _heightCache t = Some h → h = getHeight_inner (root t).

(** The child a node's entry in [currents] selects: the first child
    with the selected identifier, or the first child without an entry. *)
Definition selected_child (currents : gmap Z Z) (n : Node) : option Node :=
  match currents !! id n with
  | Some selected => List.find (λ child, bool_decide (id child = selected)) (children n)
  | None => head (children n)
  end.

(** The current line below [n]: [n], then the selected child at each
    node. *)
Fixpoint current_line (currents : gmap Z Z) (n : Node) {struct n} : list Node :=
  match n with
  | mkNode nid _ _ cs =>
      n :: match currents !! nid with
           | None =>
               match cs with
               | child :: _ => current_line currents child
               | [] => []
               end
           | Some selected =>
               (fix pick (cs : list Node) : list Node :=
                  match cs with
                  | [] => []
                  | child :: cs' =>
                      if decide (id child = selected)
                      then current_line currents child
                      else pick cs'
                  end) cs
           end
  end.

(** Every selection of [currents] at a node of the tree names one of
    that node's children. *)
Definition currents_ok (t : GameTree) (currents : gmap Z Z) : Prop :=
  ∀ n selected, n ∈ listNodes t → currents !! id n = Some selected →
    ∃ child, child ∈ children n ∧ id child = selected.

(** The sections at levels [d], [d + 1], ..., [d + k - 1], in this
    order. *)
Fixpoint sections_down (r : Node) (d k : nat) : list Node :=
  match k with
  | O => []
  | S k' => getSection_nat r d ++ sections_down r (S d) k'
  end.

(** The sections at levels [d], [d - 1], ..., 0, each from its last
    node to its first. *)
Fixpoint sections_up (r : Node) (d : nat) : list Node :=
  reverse (getSection_nat r d)
  ++ match d with
     | O => []
     | S d' => sections_up r d'
     end.

(** The height of the tree as a count of levels. *)
Definition levels (r : Node) : nat := Z.to_nat (getHeight_inner r).

(** A callback after which the draft has a new, complete root node and
    does not pass its node index on. *)
Definition sample_new_root (draft : Heap.ref) (h : Heap.heap) : Heap.heap :=
  match h !! draft with
  | Some (Heap.CDraft d) =>
      let '(payload, h) := Heap.alloc Heap.CObject h in
      let '(kids, h) := Heap.alloc Heap.CObject h in
      let '(r, h) :=
        Heap.alloc
          (Heap.CNode (Heap.mkNodeObj (Some 9) (Some payload) None (Some kids))) h in
      <[draft := Heap.CDraft
                   (Heap.mkDraftObj r false (Heap.draft_nodeCache d)
                      (Heap.draft_idAliases d) None None)]> h
  | _ => h
  end.

(** [t'] is [t] with possibly more of its index filled in, and the index
    is consistent. *)
Definition index_grown (t t' : GameTree) : Prop := same_tree t t' ∧ cache_ok t'.

(** An operation that, from a tree with unique identifiers and a
    consistent index, changes nothing but the index. *)
Definition touches_only_index {A} (m : GameTree → A * GameTree) : Prop :=
  ∀ t, NoDup (ids (root t)) → cache_ok t → index_grown t (snd (m t)).

(** * Properties *)

(** ** Nodes and their enumeration *)

Lemma Node_ind (P : Node → Prop) :
  (∀ i d p cs, Forall P cs → P (mkNode i d p cs)) → ∀ n, P n.
Proof.
  intros step. fix IH 1. intros [i d p cs]. apply step.
  induction cs as [|c cs IHcs]; constructor; [apply IH | exact IHcs].
Qed.

Lemma listNodes_inner_eq n :
  listNodes_inner n = n :: flat_map listNodes_inner (children n).
Proof. by destruct n. Qed.

Lemma Node_eqb_eq a b : Node_eqb a b = true ↔ a = b.
Proof.
  revert b. induction a as [i d p cs IH] using Node_ind. intros [i' d' p' cs'].
  simpl. rewrite !andb_true_iff, !bool_decide_eq_true.
  split.
  - intros [[[-> ->] ->] H]. f_equal.
    revert cs' H. induction IH as [|c cs Hc _ IHcs]; intros [|c' cs'] H; try done.
    apply andb_true_iff in H as [H1 H2]. f_equal; [by apply Hc | by apply IHcs].
  - intros [= -> -> -> <-]. repeat split.
    induction IH as [|c cs Hc _ IHcs]; [done|].
    apply andb_true_iff. split; [by apply Hc | done].
Qed.

Lemma Node_eqb_refl a : Node_eqb a a = true.
Proof. by apply Node_eqb_eq. Qed.

Lemma Node_eqb_neq a b : a ≠ b → Node_eqb a b = false.
Proof.
  intros H. destruct (Node_eqb a b) eqn:E; [|done].
  by apply Node_eqb_eq in E.
Qed.

Lemma self_listed n : n ∈ listNodes_inner n.
Proof. rewrite listNodes_inner_eq. apply list_elem_of_here. Qed.

Lemma elem_of_flat_map_nodes (m : Node) (cs : list Node) :
  m ∈ flat_map listNodes_inner cs ↔ ∃ c, c ∈ cs ∧ m ∈ listNodes_inner c.
Proof.
  rewrite list_elem_of_In, in_flat_map. split.
  - intros (c & H1 & H2). exists c. by rewrite !list_elem_of_In.
  - intros (c & H1 & H2). exists c. by rewrite <- !list_elem_of_In.
Qed.

Lemma listed_trans r n m :
  n ∈ listNodes_inner r → m ∈ listNodes_inner n → m ∈ listNodes_inner r.
Proof.
  induction r as [i d p cs IH] using Node_ind. intros Hn Hm.
  rewrite listNodes_inner_eq in Hn. apply elem_of_cons in Hn as [->|Hn]; [done|].
  rewrite listNodes_inner_eq. apply elem_of_cons. right.
  apply elem_of_flat_map_nodes in Hn as (c & Hc & Hn).
  apply elem_of_flat_map_nodes. exists c. split; [done|].
  rewrite Forall_forall in IH. by apply IH.
Qed.

Lemma child_listed n c : c ∈ children n → c ∈ listNodes_inner n.
Proof.
  intros H. rewrite listNodes_inner_eq. apply elem_of_cons. right.
  apply elem_of_flat_map_nodes. exists c. split; [done | apply self_listed].
Qed.

Lemma children_listed r n c :
  n ∈ listNodes_inner r → c ∈ children n → c ∈ listNodes_inner r.
Proof. intros Hn Hc. eapply listed_trans; [done | by apply child_listed]. Qed.

(** Every listed node other than the root is some listed node's child. *)
Lemma listed_has_parent r n :
  n ∈ listNodes_inner r → n = r ∨ ∃ p, p ∈ listNodes_inner r ∧ n ∈ children p.
Proof.
  induction r as [i d p cs IH] using Node_ind. intros Hn.
  rewrite listNodes_inner_eq in Hn. apply elem_of_cons in Hn as [->|Hn]; [by left|].
  right. apply elem_of_flat_map_nodes in Hn as (c & Hc & Hn).
  rewrite Forall_forall in IH.
  destruct (IH c Hc Hn) as [->|(q & Hq & Hnq)].
  - eexists. split; [apply self_listed | done].
  - exists q. split; [|done].
    eapply listed_trans; [|done]. by apply child_listed.
Qed.

(** ** Unique identifiers *)

Lemma NoDup_ids_inj (l : list Node) (x y : Node) :
  NoDup (map id l) → x ∈ l → y ∈ l → id x = id y → x = y.
Proof.
  induction l as [|a l IH]; [by intros _ ?%elem_of_nil|].
  simpl. intros [Hnotin Hnd]%NoDup_cons Hx Hy E.
  apply elem_of_cons in Hx as [->|Hx]; apply elem_of_cons in Hy as [->|Hy]; auto.
  - exfalso. apply Hnotin. rewrite E. apply list_elem_of_fmap. eauto.
  - exfalso. apply Hnotin. rewrite <- E. apply list_elem_of_fmap. eauto.
Qed.

Lemma find_node_Some i r n :
  find_node i r = Some n → n ∈ listNodes_inner r ∧ id n = i.
Proof.
  unfold find_node. intros [H1 H2]%find_some.
  apply bool_decide_eq_true in H2. by rewrite list_elem_of_In.
Qed.

Lemma find_node_None i r n :
  find_node i r = None → n ∈ listNodes_inner r → id n ≠ i.
Proof.
  unfold find_node. intros H Hn E.
  apply list_elem_of_In in Hn.
  pose proof (find_none _ _ H n Hn) as Hf. simpl in Hf.
  by apply bool_decide_eq_false in Hf.
Qed.

Lemma find_node_listed r n :
  NoDup (ids r) → n ∈ listNodes_inner r → find_node (id n) r = Some n.
Proof.
  intros Hnd Hn. destruct (find_node (id n) r) as [m|] eqn:E.
  - apply find_node_Some in E as [Hm E]. f_equal.
    by apply (NoDup_ids_inj (listNodes_inner r)).
  - exfalso. by eapply find_node_None.
Qed.

Lemma find_node_not_id i r : i ∉ ids r → find_node i r = None.
Proof.
  intros H. destruct (find_node i r) as [m|] eqn:E; [|done].
  apply find_node_Some in E as [Hm <-]. exfalso. apply H.
  unfold ids. apply list_elem_of_fmap. eauto.
Qed.

Lemma find_node_root r : find_node (id r) r = Some r.
Proof.
  unfold find_node. rewrite listNodes_inner_eq. simpl.
  by rewrite bool_decide_eq_true_2.
Qed.

(** ** The search of [get] *)

Lemma find_app_node (f : Node → bool) (l1 l2 : list Node) :
  List.find f (l1 ++ l2) =
  match List.find f l1 with Some x => Some x | None => List.find f l2 end.
Proof. induction l1 as [|a l1 IH]; simpl; [done|]. by destruct (f a). Qed.

Lemma inner_eq i n c :
  inner i n c =
  if decide (id n = i) then (Some n, <[id n := Some n]> c)
  else inner_children i (children n) (<[id n := Some n]> c).
Proof.
  destruct n as [j d p cs]. cbn [inner id children].
  destruct (decide (j = i)); [done|].
  generalize (<[j := Some (mkNode j d p cs)]> c).
  induction cs as [|a l IH]; intros c1; simpl; [done|].
  destruct (inner i a c1) as [[r|] c2]; [done | apply IH].
Qed.


Lemma adds_only_refl seen c : adds_only seen c c.
Proof. intros k v H. by left. Qed.

Lemma adds_only_trans s1 s2 c1 c2 c3 :
  adds_only s1 c1 c2 → adds_only s2 c2 c3 → adds_only (s1 ++ s2) c1 c3.
Proof.
  intros H1 H2 k v H3. destruct (H2 k v H3) as [H|(m & ? & ? & ?)].
  - destruct (H1 k v H) as [?|(m & ? & ? & ?)]; [by left|].
    right. exists m. rewrite elem_of_app. auto.
  - right. exists m. rewrite elem_of_app. auto.
Qed.

Lemma adds_only_insert n c : adds_only [n] c (<[id n := Some n]> c).
Proof.
  intros k v. rewrite lookup_insert. case_decide as E.
  - intros [= <-]. right. exists n. split; [done|]. split; [apply list_elem_of_here | done].
  - by left.
Qed.

Lemma inner_spec i n :
  ∀ c, fst (inner i n c) = find_node i n
       ∧ adds_only (listNodes_inner n) c (snd (inner i n c)).
Proof.
  induction n as [j d p cs IH] using Node_ind. intros c.
  assert (Hcs : ∀ c1,
    fst (inner_children i cs c1)
      = List.find (λ n, bool_decide (id n = i)) (flat_map listNodes_inner cs)
    ∧ adds_only (flat_map listNodes_inner cs) c1 (snd (inner_children i cs c1))).
  { induction IH as [|ch cs Hch _ IHcs]; intros c1.
    - split; [done | apply adds_only_refl].
    - cbn [inner_children flat_map]. rewrite find_app_node.
      destruct (Hch c1) as [H1 H2]. unfold find_node in H1. rewrite <- H1.
      destruct (inner i ch c1) as [[r|] c2]; cbn [fst snd] in *.
      + split; [done|]. intros k v Hk. destruct (H2 k v Hk) as [?|(m & ? & ? & ?)]; [by left|].
        right. exists m. rewrite elem_of_app. auto.
      + destruct (IHcs c2) as [H3 H4]. split; [done|].
        by eapply adds_only_trans. }
  rewrite inner_eq. unfold find_node. rewrite listNodes_inner_eq.
  cbn [id children List.find]. destruct (decide (j = i)) as [->|Hne].
  - rewrite bool_decide_eq_true_2 by done. split; [done|].
    intros k v Hk. destruct (adds_only_insert (mkNode i d p cs) c k v Hk) as [?|(m & ? & ?%list_elem_of_singleton & ?)];
      [by left|]. subst. right. eexists. split; [done|]. split; [apply list_elem_of_here | done].
  - rewrite bool_decide_eq_false_2 by done.
    destruct (Hcs (<[j := Some (mkNode j d p cs)]> c)) as [H1 H2]. split; [done|].
    change (mkNode j d p cs :: flat_map listNodes_inner cs)
      with ([mkNode j d p cs] ++ flat_map listNodes_inner cs).
    eapply adds_only_trans; [|done]. apply (adds_only_insert (mkNode j d p cs)).
Qed.

(** ** Alias resolution *)

Lemma resolve_not_alias f al i : al !! i = None → resolve f al i = Some i.
Proof. intros H. destruct f; simpl; by rewrite H. Qed.

Lemma resolve_alias f al i a :
  al !! i = Some a → resolve (S f) al i = resolve f al a.
Proof. intros H. simpl. by rewrite H. Qed.

Lemma resolve_mono f f' al i r :
  resolve f al i = Some r → (f ≤ f')%nat → resolve f' al i = Some r.
Proof.
  revert f' i. induction f as [|f IH]; intros f' i H Hle.
  - simpl in H. destruct (al !! i) eqn:E; [done|].
    by rewrite resolve_not_alias.
  - simpl in H. destruct (al !! i) as [a|] eqn:E.
    + destruct f' as [|f']; [lia|]. rewrite (resolve_alias _ _ _ _ E).
      apply IH; [done | lia].
    + by rewrite resolve_not_alias.
Qed.

Lemma resolve_final f al i r : resolve f al i = Some r → al !! r = None.
Proof.
  revert i. induction f as [|f IH]; intros i; simpl;
    destruct (al !! i) eqn:E; try done; try (by intros [= <-]). apply IH.
Qed.

Lemma resolve_within D f t i :
  aliases_within D t → (D ≤ f)%nat →
  resolve f (_idAliases t) i = resolve D (_idAliases t) i.
Proof.
  intros H Hle. destruct (H i) as [r Hr]. rewrite Hr.
  by eapply resolve_mono.
Qed.

(** ** The same tree under a growing index *)

Lemma same_tree_refl t : same_tree t t.
Proof. by repeat split. Qed.

Lemma same_tree_trans t1 t2 t3 : same_tree t1 t2 → same_tree t2 t3 → same_tree t1 t3.
Proof.
  intros (?&?&?&?) (?&?&?&?). repeat split; congruence.
Qed.

Lemma same_tree_set_nodeCache c t : same_tree t (set_nodeCache c t).
Proof. by repeat split. Qed.

Lemma same_tree_wf t t' : same_tree t t' → wf_tree t → wf_tree t'.
Proof.
  intros (Hr & Ha & _) [H1 H2 H3 H4]. split; rewrite ?Hr, ?Ha; done.
Qed.

Lemma same_tree_lookup D t t' i :
  same_tree t t' → lookup_node D t' i = lookup_node D t i.
Proof. intros (Hr & Ha & _). unfold lookup_node. by rewrite Hr, Ha. Qed.

Lemma same_tree_aliases_within D t t' :
  same_tree t t' → aliases_within D t → aliases_within D t'.
Proof. intros (Hr & Ha & _) H i. rewrite Ha. apply H. Qed.

Lemma cache_ok_empty t : cache_ok (set_nodeCache ∅ t).
Proof. apply map_Forall_empty. Qed.

Lemma cache_ok_new r : cache_ok (new_GameTree r).
Proof. apply map_Forall_empty. Qed.

(** ** get *)

Lemma cache_children_ok r cs c :
  NoDup (ids r) →
  (∀ ch, ch ∈ cs → ch ∈ listNodes_inner r) →
  map_Forall (λ k v, v = find_node k r) c →
  map_Forall (λ k v, v = find_node k r) (cache_children cs c).
Proof.
  intros Hnd. unfold cache_children. revert c.
  induction cs as [|ch cs IH]; intros c Hin Hc; simpl; [done|].
  apply IH.
  - intros ? ?. apply Hin. by apply elem_of_cons; right.
  - apply map_Forall_insert_2; [|done].
    symmetry. apply find_node_listed; [done|]. apply Hin, list_elem_of_here.
Qed.

Lemma get_unfold f i t :
  get f (Some i) t =
  match _idAliases t !! i with
  | Some a =>
      match f with
      | O => (OutOfFuel, t)
      | S f' => get f' (Some a) t
      end
  | None =>
      match (match _nodeCache t !! i with
             | Some node => (node, _nodeCache t)
             | None => inner i (root t) (_nodeCache t)
             end) with
      | (None, cache) => (Ok None, set_nodeCache (<[i := None]> cache) t)
      | (Some node, cache) =>
          (Ok (Some node), set_nodeCache (cache_children (children node) cache) t)
      end
  end.
Proof. destruct f; simpl; destruct (_idAliases t !! i); try done;
  by destruct (match _nodeCache t !! i with Some _ => _ | None => _ end) as [[?|] ?]. Qed.

(** A lookup that needs no alias hop: a hit in the index or a search. *)
Lemma get_direct f i t :
  _idAliases t !! i = None → NoDup (ids (root t)) → cache_ok t →
  returns (get f (Some i)) t (Ok (find_node i (root t))).
Proof.
  intros Ea Hnd Hc. unfold returns. rewrite get_unfold, Ea.
  assert (∃ c', match _nodeCache t !! i with
                | Some node => (node, _nodeCache t)
                | None => inner i (root t) (_nodeCache t)
                end = (find_node i (root t), c')
                ∧ map_Forall (λ k v, v = find_node k (root t)) c')
    as (c' & -> & Hc').
  { destruct (_nodeCache t !! i) as [v|] eqn:Ec.
    - exists (_nodeCache t). split; [|done]. f_equal. apply (Hc i v Ec).
    - destruct (inner_spec i (root t) (_nodeCache t)) as [H1 H2].
      destruct (inner i (root t) (_nodeCache t)) as [res c'].
      cbn [fst snd] in *. subst res. exists c'. split; [done|].
      intros k v Hk. destruct (H2 k v Hk) as [Hold|(m & -> & Hm & <-)].
      + by apply (Hc k v).
      + symmetry. by apply find_node_listed. }
  destruct (find_node i (root t)) as [n|] eqn:En.
  - eexists. split; [done|]. split; [apply same_tree_set_nodeCache|].
    apply cache_children_ok; [done| |done].
    apply find_node_Some in En as [Hn _]. intros ch Hch. by eapply children_listed.
  - eexists. split; [done|]. split; [apply same_tree_set_nodeCache|].
    by apply map_Forall_insert_2.
Qed.

(** What [get] returns, given a consistent index: the first hit of a
    search for the resolved identifier. *)
Lemma get_returns f i t :
  NoDup (ids (root t)) → cache_ok t →
  returns (get f i) t
    match i with
    | None => Ok None
    | Some i =>
        match resolve f (_idAliases t) i with
        | Some r => Ok (find_node r (root t))
        | None => OutOfFuel
        end
    end.
Proof.
  intros Hnd Hc.
  destruct i as [i|];
    [|exists t; split; [by destruct f | split; [apply same_tree_refl | done]]].
  revert i. induction f as [|f IH]; intros i;
    destruct (_idAliases t !! i) as [a|] eqn:Ea.
  - unfold returns. rewrite get_unfold. simpl. rewrite Ea.
    exists t. split; [done|]. split; [apply same_tree_refl | done].
  - rewrite (resolve_not_alias _ _ _ Ea). by apply get_direct.
  - rewrite (resolve_alias _ _ _ _ Ea). unfold returns. rewrite get_unfold, Ea.
    apply IH.
  - rewrite (resolve_not_alias _ _ _ Ea). by apply get_direct.
Qed.

(** With every alias chain within the fuel, [get] returns the node the
    identifier resolves to. *)
Lemma get_lookup D f i t :
  NoDup (ids (root t)) → cache_ok t → aliases_within D t → (D ≤ f)%nat →
  returns (get f i) t (Ok (lookup_node D t i)).
Proof.
  intros Hnd Hc Hal Hle. pose proof (get_returns f i t Hnd Hc) as H.
  destruct i as [i|]; [|exact H]. unfold lookup_node.
  rewrite (resolve_within D f t i Hal Hle) in H.
  destruct (Hal i) as [r Hr]. by rewrite Hr in *.
Qed.

Lemma after_lookups_ok f qs t :
  NoDup (ids (root t)) → cache_ok t →
  same_tree t (after_lookups f qs t) ∧ cache_ok (after_lookups f qs t).
Proof.
  revert t. induction qs as [|q qs IH]; intros t Hnd Hc; simpl.
  - split; [apply same_tree_refl | done].
  - destruct (get_returns f q t Hnd Hc) as (t' & E & Hs & Hc').
    rewrite E. cbn [snd].
    destruct (IH t') as [Hs' Hc'']; [by rewrite (proj1 Hs) | done |].
    split; [by eapply same_tree_trans | done].
Qed.

(** C1: get(id) returns absent or the node whose identifier is the
    alias-resolved query (the first such node of the tree, if there is
    one); a null query and an identifier that is not in the tree give
    absent; and the answer is the one the tree gives with an empty index,
    whatever lookups came before. *)
Theorem get_returns_resolved_node_or_absent
    (t : GameTree) (queries : list (option Z)) (fuel : nat) (i : option Z) :
  NoDup (ids (root t)) → cache_ok t → aliases_within fuel t →
  ∃ res t',
    get fuel i (after_lookups fuel queries t) = (Ok res, t')
    ∧ res = lookup_node fuel t i
    ∧ (res = None
       ∨ ∃ i0 r n, i = Some i0 ∧ resolve fuel (_idAliases t) i0 = Some r
                   ∧ res = Some n ∧ n ∈ listNodes t ∧ id n = r)
    ∧ (i = None → res = None)
    ∧ (∀ i0 r, i = Some i0 → resolve fuel (_idAliases t) i0 = Some r →
               r ∉ ids (root t) → res = None)
    ∧ fst (get fuel i (set_nodeCache ∅ t)) = Ok res
    ∧ same_tree t t' ∧ cache_ok t'.
Proof.
  intros Hnd Hc Hal.
  destruct (after_lookups_ok fuel queries t Hnd Hc) as [Hs Hc1].
  set (t1 := after_lookups fuel queries t) in *.
  assert (Hnd1 : NoDup (ids (root t1))) by (by rewrite (proj1 Hs)).
  destruct (get_lookup fuel fuel i t1 Hnd1 Hc1) as (t' & E & Hs' & Hc');
    [by eapply same_tree_aliases_within | done |].
  rewrite (same_tree_lookup _ _ _ _ Hs) in E.
  exists (lookup_node fuel t i), t'. split; [done|]. split; [done|].
  split; [|split; [|split; [|split; [|split]]]].
  - destruct i as [i0|]; [|by left]. unfold lookup_node.
    destruct (Hal i0) as [r Hr]. rewrite Hr.
    destruct (find_node r (root t)) as [n|] eqn:En; [|by left].
    right. exists i0, r, n. apply find_node_Some in En as [? ?]. done.
  - by intros ->.
  - intros i0 r -> Hr Hnot. unfold lookup_node. rewrite Hr.
    by apply find_node_not_id.
  - destruct (get_lookup fuel fuel i (set_nodeCache ∅ t)) as (t2 & E2 & _);
      [done | apply cache_ok_empty | done | done |].
    rewrite E2. cbn [fst]. f_equal.
  - by eapply same_tree_trans.
  - done.
Qed.

(** ** Sequencing *)

(** A lookup on a well-formed tree with enough fuel for its aliases. *)
Ltac get_resolves D :=
  apply (get_lookup D); [by apply wf_ids | done | done | lia].

Lemma returns_bind {A B} (m : M A) (k : A → M B) t a r :
  returns m t (Ok a) →
  (∀ t', same_tree t t' → cache_ok t' → returns (k a) t' r) →
  returns (bind m k) t r.
Proof.
  intros (t1 & E & Hs & Hc) Hk. destruct (Hk t1 Hs Hc) as (t2 & E2 & Hs2 & Hc2).
  exists t2. unfold bind. rewrite E. split; [done|]. split; [|done].
  by eapply same_tree_trans.
Qed.

Lemma returns_ret {A} (a : A) t : cache_ok t → returns (ret a) t (Ok a).
Proof. intros Hc. exists t. split; [done|]. split; [apply same_tree_refl | done]. Qed.

Lemma returns_throw {A} e t : cache_ok t → returns (@throw A e) t (Throw e).
Proof. intros Hc. exists t. split; [done|]. split; [apply same_tree_refl | done]. Qed.

Lemma returns_bind_throw {A B} (m : M A) (k : A → M B) t e :
  returns m t (Throw e) → returns (bind m k) t (Throw e).
Proof. intros (t1 & E & Hs & Hc). exists t1. unfold bind. by rewrite E. Qed.

Lemma yields_gbind {A} (m : M A) (k : A → G) t a tr :
  returns m t (Ok a) →
  (∀ t', same_tree t t' → cache_ok t' → yields (k a) t' tr) →
  yields (gbind m k) t tr.
Proof.
  intros (t1 & E & Hs & Hc) Hk. destruct (Hk t1 Hs Hc) as (t2 & E2 & Hs2 & Hc2).
  exists t2. unfold gbind. rewrite E. split; [done|]. split; [|done].
  by eapply same_tree_trans.
Qed.

Lemma yields_yield_then n (g : G) t tr :
  yields g t tr → yields (yield_then n g) t (Yield n tr).
Proof. intros (t1 & E & Hs & Hc). exists t1. unfold yield_then. by rewrite E. Qed.

Lemma yields_done t : cache_ok t → yields (λ t, (Done, t)) t Done.
Proof. intros Hc. exists t. split; [done|]. split; [apply same_tree_refl | done]. Qed.

(** ** Well-formed trees *)

Lemma wf_child_parentId t n c :
  wf_tree t → n ∈ listNodes_inner (root t) → c ∈ children n →
  parentId c = Some (id n).
Proof.
  intros Hwf Hn Hc. pose proof (wf_links t Hwf) as H.
  unfold links_ok in H. rewrite Forall_forall in H. specialize (H n Hn).
  rewrite Forall_forall in H. by apply H.
Qed.

Lemma wf_not_alias t n :
  wf_tree t → n ∈ listNodes_inner (root t) → _idAliases t !! id n = None.
Proof.
  intros Hwf Hn. pose proof (wf_aliases t Hwf) as H.
  rewrite Forall_forall in H. apply H. unfold ids. apply list_elem_of_fmap. eauto.
Qed.

Lemma lookup_listed D t n :
  wf_tree t → n ∈ listNodes_inner (root t) → lookup_node D t (Some (id n)) = Some n.
Proof.
  intros Hwf Hn. unfold lookup_node.
  rewrite resolve_not_alias by (by apply wf_not_alias).
  apply find_node_listed; [apply Hwf | done].
Qed.

Lemma lookup_node_listed D t i n :
  lookup_node D t i = Some n → n ∈ listNodes_inner (root t).
Proof.
  unfold lookup_node. destruct i as [i|]; [|done].
  destruct (resolve D (_idAliases t) i); [|done].
  by intros [? ?]%find_node_Some.
Qed.

Lemma existsb_Node_eqb n cs : existsb (Node_eqb n) cs = true ↔ n ∈ cs.
Proof.
  rewrite existsb_exists. split.
  - intros (x & Hx & E). apply Node_eqb_eq in E as ->. by apply list_elem_of_In.
  - intros H. exists n. split; [by apply list_elem_of_In | apply Node_eqb_refl].
Qed.

(** The parent link of a node names the node that holds it. *)
Lemma parent_cases t n :
  wf_tree t → n ∈ listNodes_inner (root t) →
  (n = root t ∧ parentId n = None ∧ parent_in (root t) n = None)
  ∨ (∃ q, q ∈ listNodes_inner (root t) ∧ n ∈ children q
          ∧ parentId n = Some (id q) ∧ parent_in (root t) n = Some q).
Proof.
  intros Hwf Hn.
  assert (Huniq : ∀ q, parent_in (root t) n = Some q →
            q ∈ listNodes_inner (root t) ∧ n ∈ children q).
  { intros q [H1 H2]%find_some. split; [by apply list_elem_of_In|].
    by apply existsb_Node_eqb. }
  destruct (listed_has_parent _ _ Hn) as [->|(p & Hp & Hnp)].
  - left. split; [done|]. split; [apply Hwf|].
    destruct (parent_in (root t) (root t)) as [q|] eqn:E; [|done].
    destruct (Huniq q eq_refl) as [Hq Hc].
    pose proof (wf_child_parentId t q (root t) Hwf Hq Hc) as Hpar.
    by rewrite (wf_root t Hwf) in Hpar.
  - right. exists p. split; [done|]. split; [done|].
    split; [by eapply wf_child_parentId|].
    destruct (parent_in (root t) n) as [q|] eqn:E.
    + destruct (Huniq q eq_refl) as [Hq Hc]. f_equal.
      apply (NoDup_ids_inj (listNodes_inner (root t))); [apply Hwf | done | done |].
      pose proof (wf_child_parentId t q n Hwf Hq Hc) as H1.
      pose proof (wf_child_parentId t p n Hwf Hp Hnp) as H2. congruence.
    + exfalso. unfold parent_in in E. apply list_elem_of_In in Hp.
      pose proof (find_none _ _ E p Hp) as Hf. simpl in Hf.
      apply existsb_Node_eqb in Hnp. congruence.
Qed.

Lemma lookup_parent D t n :
  wf_tree t → n ∈ listNodes_inner (root t) →
  lookup_node D t (parentId n) = parent_in (root t) n.
Proof.
  intros Hwf Hn. destruct (parent_cases t n Hwf Hn) as [(_ & -> & ->)|(q & Hq & _ & -> & ->)];
    [done | by apply lookup_listed].
Qed.

Lemma same_tree_ancestor t t' k n :
  same_tree t t' → ancestor (root t') k n = ancestor (root t) k n.
Proof. intros (-> & _). done. Qed.

Lemma same_tree_descend D t t' c k n :
  same_tree t t' → descend D t' c k n = descend D t c k n.
Proof.
  intros Hs. revert n. induction k as [|k IH]; intros n; simpl; [done|].
  assert (next_node D t' c n = next_node D t c n) as ->.
  { unfold next_node. destruct (c !! id n); [|done]. by apply same_tree_lookup. }
  destruct (next_node D t c n); auto.
Qed.

(** ** navigate *)

Lemma navigate_absent D f i step cur t :
  wf_tree t → cache_ok t → aliases_within D t → (D < f)%nat →
  lookup_node D t i = None →
  returns (navigate f i step cur) t (Ok None).
Proof.
  intros Hwf Hc Hal Hf Hi. destruct f as [|f]; [lia|]. cbn [navigate].
  eapply returns_bind.
  { get_resolves D. }
  intros t' Hs Hc'. rewrite Hi. by apply returns_ret.
Qed.

Lemma navigate_up D t k : ∀ f i cur,
  wf_tree t → cache_ok t → aliases_within D t → (D + k < f)%nat →
  returns (navigate f i (- Z.of_nat k) cur) t
    (Ok match lookup_node D t i with
        | Some n => ancestor (root t) k n
        | None => None
        end).
Proof.
  revert t. induction k as [|k IH]; intros t f i cur Hwf Hc Hal Hf;
    (destruct f as [|f]; [lia|]); cbn [navigate];
    (eapply returns_bind;
      [get_resolves D|]);
    intros t' Hs Hc'; destruct (lookup_node D t i) as [n|] eqn:En;
    try by apply returns_ret.
  rewrite decide_False by lia. rewrite decide_True by lia.
  replace (- Z.of_nat (S k) + 1) with (- Z.of_nat k) by lia.
  pose proof (lookup_node_listed _ _ _ _ En) as Hn.
  cbn [ancestor]. rewrite <- (lookup_parent D t n Hwf Hn).
  rewrite <- (same_tree_lookup D t t' _ Hs), <- (proj1 Hs).
  apply IH; [by eapply same_tree_wf | done | by eapply same_tree_aliases_within | lia].
Qed.

Lemma navigate_down D c k : ∀ t f i,
  wf_tree t → cache_ok t → aliases_within D t → (D + k < f)%nat →
  returns (navigate f i (Z.of_nat k) (Some c)) t
    (Ok match lookup_node D t i with
        | Some n => descend D t c k n
        | None => None
        end).
Proof.
  induction k as [|k IH]; intros t f i Hwf Hc Hal Hf;
    (destruct f as [|f]; [lia|]); cbn [navigate];
    (eapply returns_bind;
      [get_resolves D|]);
    intros t' Hs Hc'; destruct (lookup_node D t i) as [n|] eqn:En;
    try by apply returns_ret.
  rewrite decide_False by lia. rewrite decide_False by lia.
  replace (Z.of_nat (S k) - 1) with (Z.of_nat k) by lia.
  pose proof (lookup_node_listed _ _ _ _ En) as Hn.
  assert (Hwf' : wf_tree t') by (by eapply same_tree_wf).
  assert (Hal' : aliases_within D t') by (by eapply same_tree_aliases_within).
  cbn [descend]. unfold next_node. destruct (c !! id n) as [x|].
  - replace (match lookup_node D t (Some x) with
             | Some m => descend D t c k m | None => None end)
      with (match lookup_node D t' (Some x) with
            | Some m => descend D t' c k m | None => None end).
    + apply IH; [done | done | done | lia].
    + rewrite (same_tree_lookup _ _ _ _ Hs).
      destruct (lookup_node D t (Some x)); [by apply same_tree_descend | done].
  - destruct (children n) as [|ch cs] eqn:Ech; [by apply returns_ret|].
    cbn [head].
    assert (Hch : ch ∈ listNodes_inner (root t')).
    { rewrite (proj1 Hs). eapply children_listed; [done|]. rewrite Ech. apply list_elem_of_here. }
    rewrite <- (same_tree_descend D t t' c k ch Hs).
    pose proof (IH t' f (Some (id ch)) Hwf' Hc' Hal') as H.
    rewrite (lookup_listed D t' ch Hwf' Hch) in H. apply H. lia.
Qed.

(** C4: navigate(id, 0) is the node itself; a negative step goes that
    many levels up the parent chain, absent when the chain ends first; a
    positive step goes down, at each node to currents[node.id] if present,
    else to the first child, else absent.  In the scenario, two steps up
    from C is the root. *)
Theorem navigate_moves_step_edges
    (t : GameTree) (D fuel : nat) (i : option Z) (step : Z)
    (currents : gmap Z Z) (n : Node) :
  wf_tree t → cache_ok t → aliases_within D t →
  lookup_node D t i = Some n →
  (D + Z.to_nat (Z.abs step) < fuel)%nat →
  returns (navigate fuel i step (Some currents)) t
    (Ok (if decide (step = 0) then Some n
         else if decide (step < 0) then ancestor (root t) (Z.to_nat (- step)) n
         else descend D t currents (Z.to_nat step) n))
  ∧ fst (navigate 3 (Some 3) (-2) (Some ∅) scenario) = Ok (Some node_R).
Proof.
  intros Hwf Hc Hal Hi Hf. split; [|by vm_compute].
  destruct (decide (step = 0)) as [->|H0].
  - pose proof (navigate_up D t 0 fuel i (Some currents) Hwf Hc Hal) as H.
    rewrite Hi in H. apply H. simpl in Hf. lia.
  - destruct (decide (step < 0)) as [Hneg|Hpos].
    + pose proof (navigate_up D t (Z.to_nat (- step)) fuel i (Some currents) Hwf Hc Hal) as H.
      rewrite Hi in H. replace (- Z.of_nat (Z.to_nat (- step))) with step in H by lia.
      apply H. lia.
    + pose proof (navigate_down D currents (Z.to_nat step) t fuel i Hwf Hc Hal) as H.
      rewrite Hi in H. replace (Z.of_nat (Z.to_nat step)) with step in H by lia.
      apply H. lia.
Qed.

(** C10: for a step that is not positive the result does not depend on
    the currents mapping. *)
Theorem navigate_up_ignores_currents
    (fuel : nat) (i : option Z) (step : Z) (c1 c2 : option (gmap Z Z)) (t : GameTree) :
  step ≤ 0 →
  navigate fuel i step c1 t = navigate fuel i step c2 t.
Proof.
  intros Hstep. destruct fuel as [|fuel]; [done|]. cbn [navigate]. unfold bind.
  destruct (get fuel i t) as [[[node|]| |] t']; try done.
  destruct (decide (step = 0)); [done|].
  destruct (decide (step < 0)); [done | lia].
Qed.

(** ** getSequence *)

Lemma flat_map_length_le (c : Node) (cs : list Node) :
  c ∈ cs →
  (length (listNodes_inner c) ≤ length (flat_map listNodes_inner cs))%nat.
Proof.
  induction cs as [|a cs IH]; [by intros ?%elem_of_nil|].
  intros [->|H]%elem_of_cons; simpl; rewrite length_app; [lia|].
  specialize (IH H). lia.
Qed.

Lemma listed_length r n :
  n ∈ listNodes_inner r →
  (length (listNodes_inner n) ≤ length (listNodes_inner r))%nat.
Proof.
  induction r as [i d p cs IH] using Node_ind. intros Hn.
  rewrite listNodes_inner_eq in Hn. apply elem_of_cons in Hn as [->|Hn]; [done|].
  apply elem_of_flat_map_nodes in Hn as (c & Hc & Hn).
  rewrite Forall_forall in IH. specialize (IH c Hc Hn).
  rewrite (listNodes_inner_eq (mkNode i d p cs)). cbn [children length].
  pose proof (flat_map_length_le c cs Hc). lia.
Qed.

Lemma single_child_chain_det n l l' :
  single_child_chain n l → single_child_chain n l' → l = l'.
Proof.
  intros H. revert l'. induction H as [n Hn|n c l Hc _ IH]; intros l' H'.
  - inversion H' as [|? c ? Hc]; subst; [done|]. by rewrite Hc in Hn.
  - inversion H' as [? Hn|? c' ? Hc']; subst.
    + by rewrite Hc in Hn.
    + rewrite Hc in Hc'. injection Hc' as <-. f_equal. by apply IH.
Qed.

Lemma getSequence_absent D f i t :
  wf_tree t → cache_ok t → aliases_within D t → (D < f)%nat →
  lookup_node D t i = None →
  yields (getSequence f i) t Done.
Proof.
  intros Hwf Hc Hal Hf Hi. destruct f as [|f]; [lia|]. cbn [getSequence].
  eapply yields_gbind.
  { get_resolves D. }
  intros t' Hs Hc'. rewrite Hi. by apply yields_done.
Qed.

Lemma getSequence_chain D n : ∀ t f i,
  wf_tree t → cache_ok t → aliases_within D t →
  lookup_node D t i = Some n →
  (D + length (listNodes_inner n) < f)%nat →
  ∃ l, yields (getSequence f i) t (trace_of l) ∧ single_child_chain n l.
Proof.
  induction n as [j d p cs IH] using Node_ind. intros t f i Hwf Hc Hal Hi Hf.
  destruct f as [|f]; [lia|]. cbn [getSequence].
  set (n := mkNode j d p cs) in *.
  pose proof (lookup_node_listed _ _ _ _ Hi) as Hn.
  destruct cs as [|c [|c2 cs]].
  - exists [n]. split; [|by apply chain_end].
    eapply yields_gbind.
    { get_resolves D. }
    intros t' Hs Hc'. rewrite Hi. apply yields_yield_then. by apply yields_done.
  - apply Forall_inv in IH.
    assert (Hlen : (D + length (listNodes_inner c) < f)%nat).
    { rewrite (listNodes_inner_eq n) in Hf. cbn [n children flat_map length] in Hf.
      rewrite app_nil_r in Hf. lia. }
    assert (Hget : returns (get f i) t (Ok (Some n))).
    { rewrite <- Hi. get_resolves D. }
    destruct Hget as (t' & E & Hs & Hc').
    assert (Hwf' : wf_tree t') by (by eapply same_tree_wf).
    destruct (IH t' f (Some (id c)) Hwf' Hc') as (l & Hy & Hl);
      [by eapply same_tree_aliases_within | | done |].
    { apply lookup_listed; [done|]. rewrite (proj1 Hs).
      eapply children_listed; [done|]. apply list_elem_of_here. }
    exists (n :: l). split; [|by apply (chain_step n c l)].
    destruct Hy as (t'' & E2 & Hs2 & Hc2). exists t''.
    unfold gbind. rewrite E. unfold yield_then. cbn [children n]. rewrite E2.
    split; [done|]. split; [by eapply same_tree_trans | done].
  - exists [n]. split; [|apply chain_end; simpl; lia].
    eapply yields_gbind.
    { get_resolves D. }
    intros t' Hs Hc'. rewrite Hi. apply yields_yield_then. by apply yields_done.
Qed.

(** C5: getSequence(id) yields the node and then its single-child
    chain, ending with the first node that has no child or more than one;
    an absent id yields nothing; the sequence depends on the id only, not
    on earlier lookups; in the scenario getSequence(1) is [A, C]. *)
Theorem getSequence_follows_single_child_chain
    (t : GameTree) (D fuel : nat) (i : option Z) :
  wf_tree t → cache_ok t → aliases_within D t →
  (D + length (listNodes t) < fuel)%nat →
  (∀ n, lookup_node D t i = Some n →
        ∃ l, yields (getSequence fuel i) t (trace_of l)
             ∧ single_child_chain n l)
  ∧ (lookup_node D t i = None → yields (getSequence fuel i) t Done)
  ∧ (∀ queries,
       fst (getSequence fuel i (after_lookups fuel queries t))
       = fst (getSequence fuel i t))
  ∧ fst (getSequence 3 (Some 1) scenario) = trace_of [node_A; node_C].
Proof.
  intros Hwf Hc Hal Hf.
  assert (Hgen : ∀ t1, same_tree t t1 → cache_ok t1 →
     ∀ n, lookup_node D t i = Some n →
        ∃ l, yields (getSequence fuel i) t1 (trace_of l) ∧ single_child_chain n l).
  { intros t1 Hs Hc1 n Hi.
    apply (getSequence_chain D n t1 fuel i); [by eapply same_tree_wf | done
      | by eapply same_tree_aliases_within | by rewrite (same_tree_lookup _ _ _ _ Hs) |].
    pose proof (listed_length _ _ (lookup_node_listed _ _ _ _ Hi)). unfold listNodes in Hf. lia. }
  split; [by apply Hgen; [apply same_tree_refl|]|].
  split; [intros Hi; apply (getSequence_absent D); [done | done | done | lia | done]|].
  split; [|by vm_compute].
  intros queries.
  destruct (after_lookups_ok fuel queries t (wf_ids t Hwf) Hc) as [Hs Hc1].
  destruct (lookup_node D t i) as [n|] eqn:Hi.
  - destruct (Hgen _ Hs Hc1 n eq_refl) as (l1 & (? & -> & _) & Hl1).
    destruct (Hgen _ (same_tree_refl t) Hc n eq_refl) as (l2 & (? & -> & _) & Hl2).
    cbn [fst]. f_equal. by eapply single_child_chain_det.
  - destruct (getSequence_absent D fuel i (after_lookups fuel queries t))
      as (? & -> & _); [by eapply same_tree_wf | done
      | by eapply same_tree_aliases_within | lia
      | by rewrite (same_tree_lookup _ _ _ _ Hs) |].
    destruct (getSequence_absent D fuel i t) as (? & -> & _); [done | done | done | lia | done |].
    done.
Qed.

(** ** Depth *)

Lemma at_depth_listed r d n : at_depth r d n → n ∈ listNodes_inner r.
Proof.
  induction 1 as [|d p c _ IH Hc]; [apply self_listed | by eapply children_listed].
Qed.

Lemma at_depth_under r c d n :
  c ∈ children r → at_depth c d n → at_depth r (S d) n.
Proof.
  intros Hc. induction 1 as [|d p x _ IH Hx].
  - eapply at_depth_child; [apply at_depth_root | done].
  - by eapply at_depth_child.
Qed.

(** Every node of the tree lies at some depth, less than the node count. *)
Lemma listed_at_depth r n :
  n ∈ listNodes_inner r →
  ∃ d, at_depth r d n ∧ (d < length (listNodes_inner r))%nat.
Proof.
  induction r as [i d p cs IH] using Node_ind. intros Hn.
  rewrite listNodes_inner_eq in Hn. apply elem_of_cons in Hn as [->|Hn].
  - exists O. split; [apply at_depth_root|]. rewrite listNodes_inner_eq. simpl. lia.
  - apply elem_of_flat_map_nodes in Hn as (c & Hc & Hn).
    rewrite Forall_forall in IH. destruct (IH c Hc Hn) as (k & Hk & Hlt).
    exists (S k). split; [by apply (at_depth_under _ c)|].
    rewrite (listNodes_inner_eq (mkNode i d p cs)). cbn [children length].
    pose proof (flat_map_length_le c cs Hc). lia.
Qed.

Lemma wf_child_not_root t p c :
  wf_tree t → p ∈ listNodes_inner (root t) → c ∈ children p →
  id c ≠ id (root t).
Proof.
  intros Hwf Hp Hc E.
  assert (c = root t) as ->.
  { apply (NoDup_ids_inj (listNodes_inner (root t)));
      [apply Hwf | by eapply children_listed | apply self_listed | done]. }
  pose proof (wf_child_parentId t p (root t) Hwf Hp Hc) as H.
  by rewrite (wf_root t Hwf) in H.
Qed.

(** ** getLevel *)

Lemma getLevel_unfold f i t :
  getLevel (S f) i t =
  if decide (i = Some (id (root t))) then (Ok (Some 0), t)
  else bind (get f i)
         (λ node, match node with
                  | None => ret None
                  | Some node =>
                      bind (getLevel f (parentId node))
                        (λ l, ret (Some (or_zero l + 1)))
                  end) t.
Proof. done. Qed.

Lemma returns_getLevel_step f i t n r :
  wf_tree t → cache_ok t →
  i ≠ Some (id (root t)) →
  returns (get f i) t (Ok (Some n)) →
  (∀ t', same_tree t t' → cache_ok t' → returns (getLevel f (parentId n)) t' (Ok r)) →
  returns (getLevel (S f) i) t (Ok (Some (or_zero r + 1))).
Proof.
  intros Hwf Hc Hne Hget Hrec. unfold returns. rewrite getLevel_unfold.
  rewrite decide_False by done. fold (returns (A:=option Z)).
  eapply returns_bind; [done|]. intros t' Hs Hc'. cbn beta iota.
  eapply returns_bind; [by apply Hrec|]. intros t'' Hs' Hc''. by apply returns_ret.
Qed.

Lemma getLevel_of_node D r d n :
  at_depth r d n → ∀ t f,
  root t = r → wf_tree t → cache_ok t → aliases_within D t →
  (D + d < f)%nat →
  returns (getLevel f (Some (id n))) t (Ok (Some (Z.of_nat d))).
Proof.
  induction 1 as [|d p c Hp IH Hc]; intros t f Hr Hwf Hok Hal Hf;
    (destruct f as [|f]; [lia|]).
  - exists t. rewrite getLevel_unfold, Hr, decide_True by done.
    split; [done|]. split; [apply same_tree_refl | done].
  - subst r. pose proof (at_depth_listed _ _ _ Hp) as Hpl.
    replace (Z.of_nat (S d)) with (or_zero (Some (Z.of_nat d)) + 1) by (simpl; lia).
    apply (returns_getLevel_step f _ t c); [done | done | | |].
    + intros [= E]. by eapply wf_child_not_root.
    + rewrite <- (lookup_listed D t c Hwf) by (by eapply children_listed).
      get_resolves D.
    + intros t' Hs Hc'. rewrite (wf_child_parentId t p c Hwf Hpl Hc).
      apply IH; [apply Hs | by eapply same_tree_wf | done
                | by eapply same_tree_aliases_within | lia].
Qed.

Lemma getLevel_absent D f i t :
  wf_tree t → cache_ok t → aliases_within D t → (D < f)%nat →
  lookup_node D t i = None →
  returns (getLevel f i) t (Ok None).
Proof.
  intros Hwf Hc Hal Hf Hi. destruct f as [|f]; [lia|].
  unfold returns. rewrite getLevel_unfold. rewrite decide_False.
  - fold (returns (A:=option Z)). eapply returns_bind.
    { get_resolves D. }
    intros t' Hs Hc'. rewrite Hi. by apply returns_ret.
  - intros ->. rewrite (lookup_listed D t (root t) Hwf (self_listed _)) in Hi. done.
Qed.

(** The level of an identifier is the depth of the node it resolves to,
    unless it is an alias of the root. *)
Lemma getLevel_depth D t f i n d :
  wf_tree t → cache_ok t → aliases_within D t →
  lookup_node D t i = Some n → at_depth (root t) d n →
  (n = root t → i = Some (id (root t))) →
  (D + d + 1 < f)%nat →
  returns (getLevel f i) t (Ok (Some (Z.of_nat d))).
Proof.
  intros Hwf Hc Hal Hi Hd Hroot Hf.
  destruct (decide (i = Some (id (root t)))) as [->|Hne].
  { rewrite (lookup_listed D t (root t) Hwf (self_listed _)) in Hi.
    injection Hi as <-. eapply (getLevel_of_node D); [done | done | done | done | done | lia]. }
  destruct Hd as [|d p c Hp Hcp]; [by destruct Hne; apply Hroot|].
  destruct f as [|f]; [lia|].
  pose proof (at_depth_listed _ _ _ Hp) as Hpl.
  replace (Z.of_nat (S d)) with (or_zero (Some (Z.of_nat d)) + 1) by (simpl; lia).
  apply (returns_getLevel_step f _ t c); [done | done | done | |].
  - rewrite <- Hi. get_resolves D.
  - intros t' Hs Hc'. rewrite (wf_child_parentId t p c Hwf Hpl Hcp).
    eapply (getLevel_of_node D); [done | apply Hs | by eapply same_tree_wf | done
                | by eapply same_tree_aliases_within | lia].
Qed.

(** An alias of the root is reported one level down. *)
Lemma getLevel_root_alias D t f i :
  wf_tree t → cache_ok t → aliases_within D t →
  lookup_node D t i = Some (root t) → i ≠ Some (id (root t)) →
  (D + 1 < f)%nat →
  returns (getLevel f i) t (Ok (Some 1)).
Proof.
  intros Hwf Hc Hal Hi Hne Hf. destruct f as [|f]; [lia|].
  change (Some 1) with (Some (or_zero None + 1)).
  apply (returns_getLevel_step f _ t (root t)); [done | done | done | |].
  - rewrite <- Hi. get_resolves D.
  - intros t' Hs Hc'. rewrite (wf_root t Hwf).
    apply (getLevel_absent D); [by eapply same_tree_wf | done
      | by eapply same_tree_aliases_within | lia | done].
Qed.

(** ** The main line *)

Lemma main_line_eq n :
  main_line n = n :: match children n with
                     | first :: _ => main_line first
                     | [] => []
                     end.
Proof. by destruct n. Qed.

Lemma main_line_self n : n ∈ main_line n.
Proof. rewrite main_line_eq. apply list_elem_of_here. Qed.

Lemma main_line_listed r m : m ∈ main_line r → m ∈ listNodes_inner r.
Proof.
  induction r as [i d p cs IH] using Node_ind. rewrite main_line_eq.
  intros [->|Hm]%elem_of_cons; [apply self_listed|].
  cbn [children] in Hm. destruct cs as [|c cs]; [by apply elem_of_nil in Hm|].
  apply Forall_inv in IH.
  eapply listed_trans; [|by apply IH]. apply child_listed, list_elem_of_here.
Qed.

Lemma main_line_inv r m :
  m ∈ main_line r →
  m = r ∨ ∃ q, q ∈ main_line r ∧ head (children q) = Some m.
Proof.
  induction r as [i d p cs IH] using Node_ind. rewrite main_line_eq.
  intros [->|Hm]%elem_of_cons; [by left|]. right.
  cbn [children] in *. destruct cs as [|c cs]; [by apply elem_of_nil in Hm|].
  apply Forall_inv in IH. destruct (IH Hm) as [->|(q & Hq & Hh)].
  - eexists. split; [apply list_elem_of_here | done].
  - exists q. split; [by apply elem_of_cons; right | done].
Qed.

Lemma main_line_step r q m :
  q ∈ main_line r → head (children q) = Some m → m ∈ main_line r.
Proof.
  induction r as [i d p cs IH] using Node_ind. rewrite main_line_eq.
  cbn [children]. intros [->|Hq]%elem_of_cons Hh.
  - cbn [children] in Hh. destruct cs as [|c cs]; [done|]. injection Hh as ->.
    apply elem_of_cons. right. apply main_line_self.
  - destruct cs as [|c cs]; [by apply elem_of_nil in Hq|].
    apply Forall_inv in IH. apply elem_of_cons. right. by apply IH.
Qed.

(** In a well-formed tree a node other than the root is on the main line
    exactly when it is the first child of a node on the main line. *)
Lemma main_line_child t p c :
  wf_tree t → p ∈ listNodes_inner (root t) → c ∈ children p →
  c ∈ main_line (root t) ↔ head (children p) = Some c ∧ p ∈ main_line (root t).
Proof.
  intros Hwf Hp Hc. split.
  - intros [->|(q & Hq & Hh)]%main_line_inv.
    { exfalso. by eapply (wf_child_not_root t p (root t)). }
    assert (q = p) as ->; [|done].
    pose proof (main_line_listed _ _ Hq) as Hql.
    assert (Hcq : c ∈ children q).
    { destruct (children q) as [|x xs]; [done|]. injection Hh as ->. apply list_elem_of_here. }
    apply (NoDup_ids_inj (listNodes_inner (root t))); [apply Hwf | done | done |].
    pose proof (wf_child_parentId t q c Hwf Hql Hcq).
    pose proof (wf_child_parentId t p c Hwf Hp Hc). congruence.
  - intros [Hh Hpm]. by eapply main_line_step.
Qed.

Lemma yielded_trace_of l : yielded (trace_of l) = l.
Proof. induction l as [|a l IH]; simpl; [done | by rewrite IH]. Qed.

(** ** listMainNodes *)

Lemma vertical_loop_main D n : ∀ t f,
  wf_tree t → cache_ok t → aliases_within D t →
  n ∈ listNodes_inner (root t) →
  (D + length (listNodes_inner n) + 2 ≤ f)%nat →
  yields (vertical_loop f (Some n) 1 (Some ∅)) t (trace_of (main_line n)).
Proof.
  induction n as [j d p cs IH] using Node_ind. intros t f Hwf Hc Hal Hn Hf.
  destruct f as [|f]; [lia|]. set (n := mkNode j d p cs) in *.
  rewrite main_line_eq. cbn [trace_of foldr vertical_loop].
  apply yields_yield_then.
  assert (Hlen : (1 ≤ length (listNodes_inner n))%nat)
    by (rewrite listNodes_inner_eq; simpl; lia).
  eapply yields_gbind.
  { pose proof (navigate_down D ∅ 1 t f (Some (id n)) Hwf Hc Hal) as H.
    rewrite (lookup_listed D t n Hwf Hn) in H. apply H. lia. }
  intros t' Hs Hc'. cbn [descend]. unfold next_node. rewrite lookup_empty.
  cbn [children n]. destruct cs as [|c cs]; cbn [head].
  - destruct f as [|f]; [lia|]. by apply yields_done.
  - apply Forall_inv in IH. apply IH; [by eapply same_tree_wf | done
      | by eapply same_tree_aliases_within | |].
    + rewrite (proj1 Hs). eapply children_listed; [done|]. apply list_elem_of_here.
    + rewrite (listNodes_inner_eq n) in Hf. cbn [n children flat_map length] in Hf.
      rewrite length_app in Hf. lia.
Qed.

Lemma listMainNodes_unfold f t :
  listMainNodes f t =
  gbind (get f (Some (id (root t)))) (λ node, vertical_loop f node 1 (Some ∅)) t.
Proof. done. Qed.

Lemma listMainNodes_main_line D t f :
  wf_tree t → cache_ok t → aliases_within D t →
  (D + length (listNodes t) + 2 ≤ f)%nat →
  yields (listMainNodes f) t (trace_of (main_line (root t))).
Proof.
  intros Hwf Hc Hal Hf. unfold yields. rewrite listMainNodes_unfold.
  fold (yields (gbind (get f (Some (id (root t))))
                  (λ node, vertical_loop f node 1 (Some ∅))) t
               (trace_of (main_line (root t)))).
  eapply yields_gbind.
  { get_resolves D. }
  intros t' Hs Hc'. rewrite (lookup_listed D t (root t) Hwf (self_listed _)).
  rewrite <- (proj1 Hs).
  apply (vertical_loop_main D); [by eapply same_tree_wf | done
    | by eapply same_tree_aliases_within | apply self_listed |].
  rewrite (proj1 Hs). exact Hf.
Qed.

(** ** onCurrentLine *)

Lemma onCurrentLine_absent D f i c t :
  wf_tree t → cache_ok t → aliases_within D t → (D < f)%nat →
  lookup_node D t i = None →
  returns (onCurrentLine f i c) t (Throw TypeError).
Proof.
  intros Hwf Hc Hal Hf Hi. destruct f as [|f]; [lia|]. cbn [onCurrentLine].
  eapply returns_bind.
  { get_resolves D. }
  intros t' Hs Hc'. rewrite Hi. by apply returns_throw.
Qed.

Lemma onMainLine_node D r d n :
  at_depth r d n → ∀ t f i,
  root t = r → wf_tree t → cache_ok t → aliases_within D t →
  lookup_node D t i = Some n →
  (D + d < f)%nat →
  ∃ b, returns (onCurrentLine f i ∅) t (Ok b) ∧ (b = true ↔ n ∈ main_line r).
Proof.
  induction 1 as [|d p c Hp IH Hc]; intros t f i Hr Hwf Hok Hal Hi Hf;
    (destruct f as [|f]; [lia|]); cbn [onCurrentLine]; subst r.
  - exists true. split; [|split; [intros _; apply main_line_self | done]].
    eapply returns_bind.
    { get_resolves D. }
    intros t' Hs Hc'. rewrite Hi, (wf_root t Hwf). by apply returns_ret.
  - pose proof (at_depth_listed _ _ _ Hp) as Hpl.
    pose proof (main_line_child t p c Hwf Hpl Hc) as Hiff.
    assert (Hsel : (match children p with
                    | first :: _ => Node_eqb first c
                    | [] => false
                    end) = true ↔ head (children p) = Some c).
    { destruct (children p) as [|x xs]; cbn [head]; [done|].
      rewrite Node_eqb_eq. split; congruence. }
    destruct (match children p with first :: _ => Node_eqb first c | [] => false end) eqn:Esel.
    + assert (Hget : returns (get f i) t (Ok (Some c))).
      { rewrite <- Hi. get_resolves D. }
      destruct Hget as (t1 & E1 & Hs1 & Hc1).
      assert (Hget2 : returns (get f (Some (id p))) t1 (Ok (Some p))).
      { rewrite <- (lookup_listed D t1 p); [|by eapply same_tree_wf | by rewrite (proj1 Hs1)].
        apply (get_lookup D); [rewrite (proj1 Hs1); apply Hwf | done
          | by eapply same_tree_aliases_within | lia]. }
      destruct Hget2 as (t2 & E2 & Hs2 & Hc2).
      assert (Hs12 : same_tree t t2) by (by eapply same_tree_trans).
      destruct (IH t2 f (Some (id p))) as (b & (t3 & E3 & Hs3 & Hc3) & Hb);
        [apply Hs12 | by eapply same_tree_wf | done | by eapply same_tree_aliases_within
        | apply lookup_listed; [by eapply same_tree_wf | by rewrite (proj1 Hs12)] | lia |].
      exists b. split.
      * exists t3. unfold bind. rewrite E1.
        rewrite (wf_child_parentId t p c Hwf Hpl Hc), lookup_empty, E2.
        unfold ret. rewrite Esel, E3. split; [done|].
        split; [by eapply same_tree_trans | done].
      * rewrite Hb, Hiff. split; [intros ?; split; [by apply Hsel | done] | by intros [_ ?]].
    + exists false. split.
      * eapply returns_bind.
        { get_resolves D. }
        intros t1 Hs1 Hc1. rewrite Hi, (wf_child_parentId t p c Hwf Hpl Hc), lookup_empty.
        eapply returns_bind.
        { eapply returns_bind.
          - apply (get_lookup D); [rewrite (proj1 Hs1); apply Hwf | done
              | by eapply same_tree_aliases_within | lia].
          - intros t2 Hs2 Hc2. rewrite lookup_listed;
              [|by eapply same_tree_wf | by rewrite (proj1 Hs1)].
            by apply returns_ret. }
        intros t2 Hs2 Hc2. rewrite Esel. by apply returns_ret.
      * split; [done|]. rewrite Hiff. intros [Hh _]. apply Hsel in Hh. done.
Qed.

(** C6, as it holds: listMainNodes() yields the path from the root
    along the index-0 children, and onMainLine(id) returns true exactly
    when id resolves, through the alias table, to a node of that
    sequence; for an id that is no alias, exactly when it is the id of a
    yielded node. *)
Theorem onMainLine_iff_resolves_to_main_node
    (t : GameTree) (D fuel : nat) (i : option Z) :
  wf_tree t → cache_ok t → aliases_within D t →
  (D + length (listNodes t) + 2 ≤ fuel)%nat →
  fst (listMainNodes fuel t) = trace_of (main_line (root t))
  ∧ (fst (onMainLine fuel i t) = Ok true
     ↔ ∃ n, lookup_node D t i = Some n
            ∧ n ∈ yielded (fst (listMainNodes fuel t)))
  ∧ (∀ i0, i = Some i0 → _idAliases t !! i0 = None →
       (fst (onMainLine fuel i t) = Ok true
        ↔ ∃ n, n ∈ yielded (fst (listMainNodes fuel t)) ∧ id n = i0)).
Proof.
  intros Hwf Hc Hal Hf.
  destruct (listMainNodes_main_line D t fuel Hwf Hc Hal Hf) as (tm & Em & _).
  rewrite Em. cbn [fst]. split; [done|]. rewrite yielded_trace_of.
  assert (Hmain : fst (onMainLine fuel i t) = Ok true
     ↔ ∃ n, lookup_node D t i = Some n ∧ n ∈ main_line (root t)).
  { destruct (lookup_node D t i) as [n|] eqn:Hi.
    - destruct (listed_at_depth _ _ (lookup_node_listed _ _ _ _ Hi)) as (d & Hd & Hlt).
      destruct (onMainLine_node D (root t) d n Hd t fuel i eq_refl Hwf Hc Hal Hi)
        as (b & (t' & E & _) & Hb); [unfold listNodes in Hf; lia|].
      unfold onMainLine. rewrite E. cbn [fst]. split.
      + intros [= ->]. exists n. split; [done | by apply Hb].
      + intros (m & [= <-] & Hm). f_equal. by apply Hb.
    - destruct (onCurrentLine_absent D fuel i ∅ t Hwf Hc Hal) as (t' & E & _); [lia | done |].
      unfold onMainLine. rewrite E. cbn [fst]. split; [done | by intros (? & ? & _)]. }
  split; [exact Hmain|].
  intros i0 -> Hna. rewrite Hmain. unfold lookup_node.
  rewrite (resolve_not_alias _ _ _ Hna). split.
  - intros (n & Hn & Hm). exists n. split; [done|]. by apply find_node_Some in Hn as [_ ?].
  - intros (n & Hm & <-). exists n. split; [|done].
    apply find_node_listed; [apply Hwf | by apply main_line_listed].
Qed.

(** C6 as stated fails for a stale identifier: 7 is redirected to A, so
    onMainLine(7) is true, while no node of the main line has id 7. *)
Lemma onMainLine_alias_not_listed :
  fst (onMainLine 5 (Some 7) scenario_alias) = Ok true
  ∧ ¬ ∃ n, n ∈ yielded (fst (listMainNodes 5 scenario_alias)) ∧ id n = 7.
Proof.
  split; [by vm_compute|].
  intros (n & Hn & Hid).
  assert (E : yielded (fst (listMainNodes 5 scenario_alias)) = [node_R; node_A; node_C])
    by (by vm_compute).
  rewrite E in Hn. 
  repeat (apply elem_of_cons in Hn as [->|Hn]; [by vm_compute in Hid|]).
  by apply elem_of_nil in Hn.
Qed.

(** ** What can be thrown *)

Lemma get_never_throws f i t e t' : get f i t ≠ (Throw e, t').
Proof.
  destruct i as [i|]; [|by destruct f].
  revert i. induction f as [|f IH]; intros i; rewrite get_unfold;
    (destruct (_idAliases t !! i); [first [done | apply IH]|]);
    by destruct (match _nodeCache t !! i with Some _ => _ | None => _ end) as [[?|] ?].
Qed.

Lemma navigate_throws_TypeError f : ∀ i step cur t e t',
  navigate f i step cur t = (Throw e, t') → e = TypeError.
Proof.
  induction f as [|f IH]; intros i step cur t e t'; [done|].
  cbn [navigate]. unfold bind.
  destruct (get f i t) as [[[node|]| |] t1] eqn:E; try done.
  { destruct (decide (step = 0)); [done|].
    destruct (decide (step < 0)); [apply IH|].
    destruct cur as [c|]; [|by intros [= <- _]].
    destruct (match c !! id node with Some _ => _ | None => _ end); [apply IH | done]. }
  by apply get_never_throws in E.
Qed.

Lemma getLevel_never_throws f : ∀ i t e t', getLevel f i t ≠ (Throw e, t').
Proof.
  induction f as [|f IH]; intros i t e t'; [done|].
  rewrite getLevel_unfold. destruct (decide (i = Some (id (root t)))); [done|].
  unfold bind. destruct (get f i t) as [[[node|]| |] t1] eqn:E; try done.
  - destruct (getLevel f (parentId node) t1) as [[l| |] t2] eqn:E2; try done.
    by apply IH in E2.
  - by apply get_never_throws in E.
Qed.

Lemma vertical_loop_raises f : ∀ node step cur t e,
  raises e (fst (vertical_loop f node step cur t)) → e = TypeError.
Proof.
  unfold raises. induction f as [|f IH]; intros node step cur t e; [done|].
  cbn [vertical_loop]. destruct node as [node|]; [|done].
  unfold yield_then, gbind.
  destruct (navigate f (Some (id node)) step cur t) as [[next| |] t1] eqn:E.
  - specialize (IH next step cur t1 e).
    destruct (vertical_loop f next step cur t1) as [tr t2]. exact IH.
  - cbn. intros [= <-]. by eapply navigate_throws_TypeError.
  - done.
Qed.

Lemma row_loop_raises f : ∀ section index step after e,
  raises e (row_loop f section index step after) → raises e after.
Proof.
  unfold raises. induction f as [|f IH]; intros section index step after e; [done|].
  cbn [row_loop].
  destruct (if decide (0 ≤ index ∧ index < Z.of_nat (length section))
            then at_index section index else None); [apply IH | done].
Qed.

Lemma section_loop_never_raises f : ∀ t section index level step e,
  ¬ raises e (section_loop f t section index level step).
Proof.
  induction f as [|f IH]; intros t section index level step e; [done|].
  cbn [section_loop]. destruct (at_index section index); [|done].
  intros H%row_loop_raises. by apply IH in H.
Qed.

(** C9: with a step other than +1 and -1 both walks raise the
    invalid-argument error before yielding anything; with +1 or -1 they
    never raise it. *)
Theorem invalid_step_is_rejected
    (fuel : nat) (startId : option Z) (step : Z)
    (currents : option (gmap Z Z)) (t : GameTree) :
  (step ≠ 1 ∧ step ≠ -1 →
     listNodesHorizontally fuel startId step t = (Raise InvalidStep, t)
     ∧ listNodesVertically fuel startId step currents t = (Raise InvalidStep, t))
  ∧ (step = 1 ∨ step = -1 →
     ¬ raises InvalidStep (fst (listNodesHorizontally fuel startId step t))
     ∧ ¬ raises InvalidStep (fst (listNodesVertically fuel startId step currents t)))
  ∧ fst (listNodesHorizontally 5 (Some 1) 2 scenario) = Raise InvalidStep
  ∧ fst (listNodesVertically 5 (Some 1) 0 (Some ∅) scenario) = Raise InvalidStep.
Proof.
  split; [|split; [|by vm_compute]].
  - intros [H1 H2]. unfold listNodesHorizontally, listNodesVertically.
    rewrite !decide_True by lia. done.
  - intros Hstep. unfold listNodesHorizontally, listNodesVertically.
    rewrite !decide_False by lia. unfold gbind. split.
    + destruct (getLevel fuel startId t) as [[l| |] t1] eqn:E; cbn [fst].
      * apply section_loop_never_raises.
      * by apply getLevel_never_throws in E.
      * done.
    + destruct (get fuel startId t) as [[node| |] t1] eqn:E; cbn [fst].
      * intros H%vertical_loop_raises. done.
      * by apply get_never_throws in E.
      * done.
Qed.

(** ** Identifiers that resolve to no node *)

Lemma listNodesVertically_absent D f i step cur t :
  wf_tree t → cache_ok t → aliases_within D t → (D < f)%nat →
  step = 1 ∨ step = -1 →
  lookup_node D t i = None →
  yields (listNodesVertically f i step cur) t Done.
Proof.
  intros Hwf Hc Hal Hf Hstep Hi. unfold listNodesVertically.
  rewrite decide_False by lia. eapply yields_gbind.
  { get_resolves D. }
  intros t' Hs Hc'. rewrite Hi. destruct f as [|f]; [lia|]. by apply yields_done.
Qed.

Lemma listNodesHorizontally_absent D f i step t :
  wf_tree t → cache_ok t → aliases_within D t → (D < f)%nat →
  step = 1 ∨ step = -1 →
  lookup_node D t i = None →
  yields (listNodesHorizontally f i step) t Done.
Proof.
  intros Hwf Hc Hal Hf Hstep Hi. unfold listNodesHorizontally.
  rewrite decide_False by lia. eapply yields_gbind.
  { by apply (getLevel_absent D). }
  intros t' Hs Hc'. destruct f as [|f]; [lia|].
  exists t'. split; [done|]. split; [apply same_tree_refl | done].
Qed.

(** C3, as the code has it: for an identifier that resolves to no node,
    navigate and getLevel return absent and getSequence,
    listNodesVertically and listNodesHorizontally yield nothing; but
    onCurrentLine and onMainLine raise a TypeError, as for the unknown id
    99 in the scenario. *)
Theorem unknown_id_reads
    (t : GameTree) (D fuel : nat) (i : option Z) (step : Z) (currents : gmap Z Z) :
  wf_tree t → cache_ok t → aliases_within D t → (D < fuel)%nat →
  lookup_node D t i = None →
  returns (navigate fuel i step (Some currents)) t (Ok None)
  ∧ returns (getLevel fuel i) t (Ok None)
  ∧ yields (getSequence fuel i) t Done
  ∧ (step = 1 ∨ step = -1 →
       yields (listNodesVertically fuel i step (Some currents)) t Done
       ∧ yields (listNodesHorizontally fuel i step) t Done)
  ∧ returns (onCurrentLine fuel i currents) t (Throw TypeError)
  ∧ returns (onMainLine fuel i) t (Throw TypeError)
  ∧ fst (onMainLine 5 (Some 99) scenario) = Throw TypeError.
Proof.
  intros Hwf Hc Hal Hf Hi.
  split; [by apply (navigate_absent D)|].
  split; [by apply (getLevel_absent D)|].
  split; [by apply (getSequence_absent D)|].
  split; [intros Hstep; split;
          [by apply (listNodesVertically_absent D) | by apply (listNodesHorizontally_absent D)]|].
  split; [by apply (onCurrentLine_absent D)|].
  split; [by apply (onCurrentLine_absent D) | by vm_compute].
Qed.

(** C7, as the code has it: getLevel(id) is the depth of the node id
    resolves to, and absent when it resolves to none, except that an
    alias of the root is reported at level 1 instead of 0; so for the
    stale id 7 redirected to the root of the scenario.  getLevel(3) is 2
    in the scenario. *)
Theorem getLevel_is_depth_except_root_alias
    (t : GameTree) (D fuel : nat) (i : option Z) :
  wf_tree t → cache_ok t → aliases_within D t →
  (D + 1 < fuel)%nat →
  (∀ n d, lookup_node D t i = Some n → at_depth (root t) d n →
          (n = root t → i = Some (id (root t))) →
          (D + d + 1 < fuel)%nat →
          returns (getLevel fuel i) t (Ok (Some (Z.of_nat d))))
  ∧ (lookup_node D t i = None → returns (getLevel fuel i) t (Ok None))
  ∧ (lookup_node D t i = Some (root t) → i ≠ Some (id (root t)) →
     returns (getLevel fuel i) t (Ok (Some 1)))
  ∧ fst (getLevel 3 (Some 3) scenario) = Ok (Some 2)
  ∧ fst (get 3 (Some 7) scenario_root_alias) = Ok (Some node_R)
  ∧ fst (getLevel 3 (Some 7) scenario_root_alias) = Ok (Some 1).
Proof.
  intros Hwf Hc Hal Hf.
  split; [|split; [|split; [|by vm_compute]]].
  - intros n d Hi Hd Hroot Hfd. by apply (getLevel_depth D t fuel i n d).
  - intros Hi. apply (getLevel_absent D); [done | done | done | lia | done].
  - intros Hi Hne. by apply (getLevel_root_alias D).
Qed.

(** ** getStructureHash *)

Lemma hash_inner_eq n result :
  hash_inner n result =
  hash "]" (foldl (λ r child, hash_inner child r)
              (hash ("[" +:+ JSON_stringify (id n) +:+ ",") result)
              (children n)).
Proof.
  destruct n as [i d p cs]. cbn [hash_inner id children]. f_equal.
  generalize (hash ("[" +:+ JSON_stringify i +:+ ",") result).
  induction cs as [|c cs IH]; intros r; simpl; [done | apply IH].
Qed.

Lemma same_shape_eq a b :
  same_shape a b ↔ id a = id b ∧ Forall2 same_shape (children a) (children b).
Proof.
  destruct a as [i d p cs], b as [i' d' p' cs']. cbn [same_shape id children].
  apply and_iff_compat_l. revert cs'.
  induction cs as [|c cs IH]; intros [|c' cs']; split; try done;
    try (intros H; inversion H; fail).
  - intros [H1 H2]. constructor; [done | by apply IH].
  - intros H. inversion H; subst. split; [done | by apply IH].
Qed.

(** The hash reads the identifiers and the shape, nothing else. *)
Lemma hash_inner_same_shape a : ∀ b result,
  same_shape a b → hash_inner a result = hash_inner b result.
Proof.
  induction a as [i d p cs IH] using Node_ind. intros b result Hs.
  apply same_shape_eq in Hs as [Hid Hcs]. rewrite !hash_inner_eq.
  cbn [id children] in *. rewrite <- Hid. f_equal.
  generalize (hash ("[" +:+ JSON_stringify i +:+ ",") result).
  induction Hcs as [|c c' cs cs' Hc Hcs IHcs]; intros r; [done|].
  apply Forall_cons in IH as [IHc IH]. cbn [foldl].
  rewrite (IHc c' r Hc). by apply IHcs.
Qed.

(** C8: two trees with the same shape and identifiers give the same
    structure hash, whatever their payloads; and asking again gives the
    same string. *)
Theorem getStructureHash_ignores_payload (t1 t2 : GameTree) :
  same_shape (root t1) (root t2) → hash_cache_ok t1 → hash_cache_ok t2 →
  fst (getStructureHash t1) = fst (getStructureHash t2)
  ∧ fst (getStructureHash (snd (getStructureHash t1))) = fst (getStructureHash t1).
Proof.
  intros Hs H1 H2.
  assert (Hval : ∀ t, hash_cache_ok t →
            getStructureHash t
            = (Ok (pretty (toUint32 (hash_inner (root t) 5381))),
               set_structureHashCache (Some (hash_inner (root t) 5381)) t)).
  { intros t Ht. unfold getStructureHash.
    destruct (_structureHashCache t) as [h|] eqn:E; [|done].
    rewrite E. cbn [or_zero default]. rewrite (Ht h E).
    f_equal. destruct t. cbn in *. by rewrite E, (Ht h E). }
  rewrite (Hval t1 H1), (Hval t2 H2). cbn [fst snd].
  split; [by rewrite (hash_inner_same_shape _ _ _ Hs) | done].
Qed.

(** ** mutate *)

(** C2: when the draft's root after the callback is the tree's own root
    object, mutate returns the reference of the tree itself and leaves the
    heap as the callback left it: no object is allocated and the tree's
    fields, its caches among them, are untouched. *)
Theorem mutate_without_change_returns_same_instance
    (Draft_new : Heap.ref → Heap.heap → Heap.ref * Heap.heap)
    (call_getId : Heap.ref → Heap.heap → option Z * Heap.heap)
    (this : Heap.ref) (mutator : Heap.ref → Heap.heap → Heap.heap)
    (h : Heap.heap) (d : Heap.DraftObj) (self : Heap.GameTreeObj) :
  let draft := fst (Draft_new this h) in
  let h' := mutator draft (snd (Draft_new this h)) in
  h' !! draft = Some (Heap.CDraft d) →
  h' !! this = Some (Heap.CTree self) →
  Heap.draft_root d = Heap.root self →
  Heap.mutate Draft_new call_getId this mutator h = Some (this, h')
  ∧ h' !! this = Some (Heap.CTree self)
  ∧ dom h' = dom (mutator draft (snd (Draft_new this h))).
Proof.
  intros draft h' Hd Ht Hroot. split; [|done].
  unfold Heap.mutate. destruct (Draft_new this h) as [dr h1] eqn:E.
  cbn [fst snd] in *. subst draft h'. rewrite Hd, Ht.
  by rewrite decide_True.
Qed.

(** With a callback that gives the draft a new root, [mutate] returns a
    new tree object instead. *)
Lemma mutate_with_change_returns_new_instance :
  fst <$> Heap.mutate Heap.sample_Draft_new Heap.sample_getId 1%positive
            Heap.replace_root Heap.sample_heap
  = Some 16%positive.
Proof. by vm_compute. Qed.

(** ** The scenario is a well-formed tree *)

Lemma node_R_wf (al : gmap Z Z) :
  Forall (λ k, al !! k = None) (ids node_R) →
  wf_tree (mkGameTree node_R ∅ al None None).
Proof.
  intros Hal. split; [| |done|done].
  - apply (bool_decide_unpack _). by vm_compute.
  - apply (bool_decide_unpack _). by vm_compute.
Qed.

Lemma scenario_wf : wf_tree scenario.
Proof. apply node_R_wf. apply (bool_decide_unpack _). by vm_compute. Qed.

Lemma scenario_alias_wf : wf_tree scenario_alias.
Proof. apply node_R_wf. apply (bool_decide_unpack _). by vm_compute. Qed.

Lemma scenario_root_alias_wf : wf_tree scenario_root_alias.
Proof. apply node_R_wf. apply (bool_decide_unpack _). by vm_compute. Qed.

Lemma scenario_aliases_within : aliases_within 0 scenario.
Proof. intros i. by exists i. Qed.

Lemma singleton_aliases_within (r : Node) (k a : Z) :
  k ≠ a → aliases_within 1 (mkGameTree r ∅ {[k := a]} None None).
Proof.
  intros Hne i. cbn [_idAliases resolve]. destruct (decide (i = k)) as [->|Hi].
  - rewrite lookup_singleton_eq, lookup_singleton_ne by done. by eexists.
  - rewrite lookup_singleton_ne by done. by eexists.
Qed.

(** ** The scenario of the specification *)

Example scenario_getSequence_root :
  fst (getSequence 3 (Some 0) scenario) = trace_of [node_R].
Proof. by vm_compute. Qed.

Example scenario_listMainNodes :
  fst (listMainNodes 5 scenario) = trace_of [node_R; node_A; node_C].
Proof. by vm_compute. Qed.

Example scenario_onMainLine_B :
  fst (onMainLine 3 (Some 2) scenario) = Ok false.
Proof. by vm_compute. Qed.

Example scenario_listNodes :
  listNodes scenario = [node_R; node_A; node_C; node_B].
Proof. reflexivity. Qed.

Example scenario_listNodesHorizontally :
  yielded (fst (listNodesHorizontally 9 (Some 1) 1 scenario)) = [node_A; node_B; node_C]
  ∧ yielded (fst (listNodesHorizontally 9 (Some 2) (-1) scenario)) = [node_B; node_A; node_R].
Proof. by vm_compute. Qed.

Example scenario_getStructureHash :
  fst (getStructureHash scenario) = Ok "207195621".
Proof. by vm_compute. Qed.

(** ** The theorems at work on the scenario *)

Lemma get_returns_resolved_node_or_absent_witness :
  NoDup (ids (root scenario_alias)) ∧ cache_ok scenario_alias
  ∧ aliases_within 1 scenario_alias
  ∧ ∃ res t',
      get 1 (Some 7) (after_lookups 1 [Some 9; Some 3; None; Some 7] scenario_alias)
        = (Ok res, t')
      ∧ fst (get 1 (Some 7) (set_nodeCache ∅ scenario_alias)) = Ok res.
Proof.
  assert (H1 : NoDup (ids (root scenario_alias))) by apply scenario_alias_wf.
  assert (H2 : cache_ok scenario_alias) by apply cache_ok_new.
  assert (H3 : aliases_within 1 scenario_alias) by (by apply singleton_aliases_within).
  split; [exact H1|]. split; [exact H2|]. split; [exact H3|].
  destruct (get_returns_resolved_node_or_absent scenario_alias
              [Some 9; Some 3; None; Some 7] 1 (Some 7) H1 H2 H3)
    as (res & t' & E & _ & _ & _ & _ & E' & _).
  exists res, t'. split; [exact E | exact E'].
Defined.

Lemma mutate_without_change_returns_same_instance_witness :
  Heap.mutate Heap.sample_Draft_new Heap.sample_getId 1%positive
    Heap.no_edit Heap.sample_heap
  = Some (1%positive,
          Heap.no_edit (fst (Heap.sample_Draft_new 1%positive Heap.sample_heap))
            (snd (Heap.sample_Draft_new 1%positive Heap.sample_heap))).
Proof.
  apply (mutate_without_change_returns_same_instance
           Heap.sample_Draft_new Heap.sample_getId 1%positive Heap.no_edit
           Heap.sample_heap
           (Heap.mkDraftObj 2%positive true 9%positive 4%positive (Some 1) None)
           (Heap.mkGameTreeObj 5%positive 6%positive 2%positive 3%positive
              4%positive (Some 1) None)).
  - by vm_compute.
  - by vm_compute.
  - reflexivity.
Defined.

Lemma unknown_id_reads_witness :
  lookup_node 0 scenario (Some 99) = None
  ∧ returns (getLevel 3 (Some 99)) scenario (Ok None)
  ∧ returns (onMainLine 3 (Some 99)) scenario (Throw TypeError).
Proof.
  assert (Hi : lookup_node 0 scenario (Some 99) = None) by (by vm_compute).
  split; [exact Hi|].
  destruct (unknown_id_reads scenario 0 3 (Some 99) 1 ∅
              scenario_wf (cache_ok_new node_R) scenario_aliases_within)
    as (_ & H2 & _ & _ & _ & H6 & _); [lia | exact Hi |].
  split; [exact H2 | exact H6].
Defined.

Lemma navigate_moves_step_edges_witness :
  lookup_node 1 scenario_alias (Some 7) = Some node_A
  ∧ returns (navigate 3 (Some 7) 1 (Some ∅)) scenario_alias
      (Ok (descend 1 scenario_alias ∅ 1 node_A)).
Proof.
  assert (Hi : lookup_node 1 scenario_alias (Some 7) = Some node_A) by (by vm_compute).
  split; [exact Hi|].
  destruct (navigate_moves_step_edges scenario_alias 1 3 (Some 7) 1 ∅ node_A
              scenario_alias_wf (cache_ok_new node_R)
              (singleton_aliases_within node_R 7 1 ltac:(done)) Hi)
    as [H _]; [simpl; lia|].
  exact H.
Defined.

Lemma getSequence_follows_single_child_chain_witness :
  lookup_node 1 scenario_alias (Some 7) = Some node_A
  ∧ ∃ l, yields (getSequence 6 (Some 7)) scenario_alias (trace_of l)
         ∧ single_child_chain node_A l.
Proof.
  assert (Hi : lookup_node 1 scenario_alias (Some 7) = Some node_A) by (by vm_compute).
  split; [exact Hi|].
  destruct (getSequence_follows_single_child_chain scenario_alias 1 6 (Some 7)
              scenario_alias_wf (cache_ok_new node_R)
              (singleton_aliases_within node_R 7 1 ltac:(done)))
    as [H _]; [vm_compute; lia|].
  exact (H node_A Hi).
Defined.

Lemma onMainLine_iff_resolves_to_main_node_witness :
  fst (onMainLine 7 (Some 7) scenario_alias) = Ok true
  ↔ ∃ n, lookup_node 1 scenario_alias (Some 7) = Some n
         ∧ n ∈ yielded (fst (listMainNodes 7 scenario_alias)).
Proof.
  destruct (onMainLine_iff_resolves_to_main_node scenario_alias 1 7 (Some 7)
              scenario_alias_wf (cache_ok_new node_R)
              (singleton_aliases_within node_R 7 1 ltac:(done)))
    as (_ & H & _); [vm_compute; lia|].
  exact H.
Defined.

Lemma getLevel_is_depth_except_root_alias_witness :
  lookup_node 1 scenario_root_alias (Some 7) = Some (root scenario_root_alias)
  ∧ Some 7 ≠ Some (id (root scenario_root_alias))
  ∧ returns (getLevel 3 (Some 7)) scenario_root_alias (Ok (Some 1)).
Proof.
  assert (Hi : lookup_node 1 scenario_root_alias (Some 7)
               = Some (root scenario_root_alias)) by (by vm_compute).
  assert (Hne : Some 7 ≠ Some (id (root scenario_root_alias))) by done.
  split; [exact Hi|]. split; [exact Hne|].
  destruct (getLevel_is_depth_except_root_alias scenario_root_alias 1 3 (Some 7)
              scenario_root_alias_wf (cache_ok_new node_R)
              (singleton_aliases_within node_R 7 0 ltac:(done)))
    as (_ & _ & H & _); [lia|].
  exact (H Hi Hne).
Defined.

Lemma getStructureHash_ignores_payload_witness :
  same_shape (root scenario) (root scenario_repainted)
  ∧ fst (getStructureHash scenario) = fst (getStructureHash scenario_repainted).
Proof.
  assert (Hs : same_shape (root scenario) (root scenario_repainted))
    by (vm_compute; tauto).
  split; [exact Hs|].
  refine (proj1 (getStructureHash_ignores_payload scenario scenario_repainted Hs _ _));
    intros h H; discriminate H.
Defined.

Lemma invalid_step_is_rejected_witness :
  listNodesHorizontally 5 (Some 1) 2 scenario = (Raise InvalidStep, scenario)
  ∧ ¬ raises InvalidStep (fst (listNodesHorizontally 5 (Some 1) (-1) scenario)).
Proof.
  split.
  - apply (invalid_step_is_rejected 5 (Some 1) 2 (Some ∅) scenario). split; lia.
  - apply (invalid_step_is_rejected 5 (Some 1) (-1) (Some ∅) scenario). right. lia.
Defined.

Lemma navigate_up_ignores_currents_witness :
  navigate 4 (Some 3) (-1) (Some {[1 := 2]}) scenario
  = navigate 4 (Some 3) (-1) (Some ∅) scenario.
Proof.
  apply (navigate_up_ignores_currents 4 (Some 3) (-1)). lia.
Defined.

(** * Further properties *)

(** ** listNodes and get *)

Lemma get_result_listed f i t n t' :
  NoDup (ids (root t)) → cache_ok t →
  get f i t = (Ok (Some n), t') → n ∈ listNodes t.
Proof.
  intros Hnd Hc E. destruct (get_returns f i t Hnd Hc) as (t1 & E1 & _).
  rewrite E in E1. destruct i as [i|]; [|by injection E1].
  destruct (resolve f (_idAliases t) i) as [r|]; [|by injection E1].
  injection E1 as Hn _. symmetry in Hn. by apply find_node_Some in Hn as [? _].
Qed.

Lemma ids_NoDup_nodes r : NoDup (ids r) → NoDup (listNodes_inner r).
Proof. unfold ids. apply NoDup_fmap_1. Qed.

(** X1: on a well-formed tree listNodes() lists every node once, get
    of a listed node's id returns that node, and whatever get returns is
    a listed node. *)
Theorem listNodes_get_round_trip (t : GameTree) (D fuel : nat) :
  wf_tree t → cache_ok t → aliases_within D t → (D ≤ fuel)%nat →
  NoDup (listNodes t)
  ∧ head (listNodes t) = Some (root t)
  ∧ (∀ n, n ∈ listNodes t → returns (get fuel (Some (id n))) t (Ok (Some n)))
  ∧ (∀ i n t', get fuel i t = (Ok (Some n), t') → n ∈ listNodes t).
Proof.
  intros Hwf Hc Hal Hf. split; [apply ids_NoDup_nodes, Hwf|].
  split; [unfold listNodes; by rewrite listNodes_inner_eq|].
  split.
  - intros n Hn. rewrite <- (lookup_listed D t n Hwf Hn).
    apply (get_lookup D); [apply Hwf | done | done | done].
  - intros i n t' E. eapply get_result_listed; [apply Hwf | done | done].
Qed.

(** ** What get leaves in the index *)

Lemma inner_keeps_keys i n : ∀ c k,
  is_Some (c !! k) → is_Some (snd (inner i n c) !! k).
Proof.
  induction n as [j d p cs IH] using Node_ind. intros c k Hk.
  rewrite inner_eq. cbn [id children].
  assert (Hk1 : is_Some (<[j := Some (mkNode j d p cs)]> c !! k)).
  { rewrite lookup_insert. by case_decide. }
  destruct (decide (j = i)); [done|].
  revert Hk1. generalize (<[j := Some (mkNode j d p cs)]> c).
  induction IH as [|ch cs' Hch _ IHcs]; intros c1 Hk1; [done|].
  cbn [inner_children]. specialize (Hch c1 k Hk1).
  destruct (inner i ch c1) as [[r|] c2]; [done | by apply IHcs].
Qed.

Lemma inner_found_key i n : ∀ c m,
  fst (inner i n c) = Some m → is_Some (snd (inner i n c) !! i).
Proof.
  induction n as [j d p cs IH] using Node_ind. intros c m.
  rewrite inner_eq. cbn [id children].
  destruct (decide (j = i)) as [->|Hne].
  { intros _. cbn [snd]. rewrite lookup_insert_eq. by eexists. }
  generalize (<[j := Some (mkNode j d p cs)]> c).
  induction IH as [|ch cs' Hch _ IHcs]; intros c1; [done|].
  cbn [inner_children]. specialize (Hch c1).
  destruct (inner i ch c1) as [[r|] c2] eqn:E; cbn [fst snd] in *.
  - intros _. by apply (Hch r).
  - apply IHcs.
Qed.

Lemma cache_children_keeps_keys cs : ∀ c k,
  is_Some (c !! k) → is_Some (cache_children cs c !! k).
Proof.
  unfold cache_children. induction cs as [|ch cs IH]; intros c k Hk; [done|].
  cbn [foldl]. apply IH. rewrite lookup_insert. by case_decide.
Qed.

Lemma cache_children_has_child cs : ∀ c ch,
  ch ∈ cs → is_Some (cache_children cs c !! id ch).
Proof.
  unfold cache_children. induction cs as [|x cs IH]; intros c ch Hch;
    [by apply elem_of_nil in Hch|].
  cbn [foldl]. apply elem_of_cons in Hch as [->|Hch]; [|by apply IH].
  apply (cache_children_keeps_keys cs). rewrite lookup_insert_eq. by eexists.
Qed.

(** The keys of the index after a lookup that needs no alias hop. *)
Lemma get_direct_keys f i t res t' :
  _idAliases t !! i = None →
  get f (Some i) t = (res, t') →
  is_Some (_nodeCache t' !! i)
  ∧ (∀ k, is_Some (_nodeCache t !! k) → is_Some (_nodeCache t' !! k))
  ∧ (∀ n ch, res = Ok (Some n) → ch ∈ children n →
       is_Some (_nodeCache t' !! id ch)).
Proof.
  intros Ea. rewrite get_unfold, Ea.
  assert (∃ v c',
            match _nodeCache t !! i with
            | Some node => (node, _nodeCache t)
            | None => inner i (root t) (_nodeCache t)
            end = (v, c')
            ∧ (∀ k, is_Some (_nodeCache t !! k) → is_Some (c' !! k))
            ∧ (is_Some v → is_Some (c' !! i)))
    as (v & c' & -> & Hkeep & Hfound).
  { destruct (_nodeCache t !! i) as [v|] eqn:Ec.
    - exists v, (_nodeCache t). split; [done|]. split; [done|]. intros _. by rewrite Ec.
    - pose proof (inner_keeps_keys i (root t) (_nodeCache t)) as H1.
      pose proof (inner_found_key i (root t) (_nodeCache t)) as H2.
      destruct (inner i (root t) (_nodeCache t)) as [v c']. cbn [fst snd] in *.
      exists v, c'. split; [done|]. split; [done|]. intros [m ->]. by apply (H2 m). }
  destruct v as [n|]; intros [= <- <-]; cbn [_nodeCache set_nodeCache].
  - split; [apply cache_children_keeps_keys, Hfound; by eexists|]. split.
    + intros k Hk. by apply cache_children_keeps_keys, Hkeep.
    + intros n' ch [= <-] Hch. by apply cache_children_has_child.
  - split; [rewrite lookup_insert_eq; by eexists|]. split; [|done].
    intros k Hk. rewrite lookup_insert. case_decide; [by eexists | by apply Hkeep].
Qed.

Lemma get_keys f : ∀ i t r res t',
  resolve f (_idAliases t) i = Some r →
  get f (Some i) t = (res, t') →
  is_Some (_nodeCache t' !! r)
  ∧ (∀ k, is_Some (_nodeCache t !! k) → is_Some (_nodeCache t' !! k))
  ∧ (∀ n ch, res = Ok (Some n) → ch ∈ children n →
       is_Some (_nodeCache t' !! id ch)).
Proof.
  induction f as [|f IH]; intros i t r res t' Hr E;
    destruct (_idAliases t !! i) as [a|] eqn:Ea.
  - simpl in Hr. by rewrite Ea in Hr.
  - rewrite (resolve_not_alias _ _ _ Ea) in Hr. injection Hr as <-.
    by eapply get_direct_keys.
  - rewrite (resolve_alias _ _ _ _ Ea) in Hr. rewrite get_unfold, Ea in E.
    by eapply IH.
  - rewrite (resolve_not_alias _ _ _ Ea) in Hr. injection Hr as <-.
    by eapply get_direct_keys.
Qed.

(** X2: after get(id) the index holds the answer under the resolved
    identifier (the node, or the known-absent marker), it holds every
    child of a node that was found, and no earlier entry is lost or
    changed. *)
Theorem get_memoises
    (t : GameTree) (fuel : nat) (i r : Z) (res : result (option Node)) (t' : GameTree) :
  NoDup (ids (root t)) → cache_ok t →
  resolve fuel (_idAliases t) i = Some r →
  get fuel (Some i) t = (res, t') →
  res = Ok (find_node r (root t))
  ∧ _nodeCache t' !! r = Some (find_node r (root t))
  ∧ (∀ n ch, res = Ok (Some n) → ch ∈ children n →
       _nodeCache t' !! id ch = Some (Some ch))
  ∧ (∀ k v, _nodeCache t !! k = Some v → _nodeCache t' !! k = Some v).
Proof.
  intros Hnd Hc Hr E.
  destruct (get_returns fuel (Some i) t Hnd Hc) as (t1 & E1 & Hs & Hc').
  rewrite Hr, E in E1. injection E1 as -> <-.
  destruct (get_keys fuel i t r _ t' Hr E) as (Hkey & Hkeep & Hch).
  assert (Hval : ∀ k, is_Some (_nodeCache t' !! k) →
                      _nodeCache t' !! k = Some (find_node k (root t))).
  { intros k [v Hv]. rewrite Hv. f_equal. rewrite <- (proj1 Hs). apply (Hc' k v Hv). }
  split; [done|]. split; [by apply Hval|]. split.
  - intros n ch Hn Hin. rewrite (Hval _ (Hch n ch Hn Hin)). f_equal.
    apply find_node_listed; [done|]. injection Hn as Hn.
    apply find_node_Some in Hn as [Hn _]. by eapply children_listed.
  - intros k v Hv. rewrite Hval by (apply Hkeep; by eexists).
    f_equal. symmetry. apply (Hc k v Hv).
Qed.

(** ** Sections and depth *)

Lemma getSection_at_depth r d n : n ∈ getSection_nat r d ↔ at_depth r d n.
Proof.
  split.
  - revert n. induction d as [|d IH]; intros n; cbn [getSection_nat].
    + intros ->%list_elem_of_singleton. apply at_depth_root.
    + rewrite list_elem_of_In, in_flat_map.
      intros (p & Hp%list_elem_of_In & Hn%list_elem_of_In).
      eapply at_depth_child; [by apply IH | done].
  - induction 1 as [|d p c _ IH Hc]; cbn [getSection_nat].
    + apply list_elem_of_here.
    + rewrite list_elem_of_In, in_flat_map. exists p.
      by rewrite <- !list_elem_of_In.
Qed.

Lemma flat_map_flat_map {A B C} (f : A → list B) (g : B → list C) (l : list A) :
  flat_map g (flat_map f l) = flat_map (λ a, flat_map g (f a)) l.
Proof.
  induction l as [|a l IH]; simpl; [done|]. by rewrite flat_map_app, IH.
Qed.

Lemma flat_map_singleton {A} (l : list A) : flat_map (λ a, [a]) l = l.
Proof. induction l as [|a l IH]; simpl; [done | by rewrite IH]. Qed.

(** The section at the next level is made of the children's sections. *)
Lemma getSection_nat_children d : ∀ r,
  getSection_nat r (S d) = flat_map (λ c, getSection_nat c d) (children r).
Proof.
  induction d as [|d IH]; intros r.
  - cbn [getSection_nat flat_map]. by rewrite app_nil_r, flat_map_singleton.
  - change (getSection_nat r (S (S d)))
      with (flat_map children (getSection_nat r (S d))).
    rewrite IH, flat_map_flat_map. done.
Qed.

Lemma at_depth_unique D t d d' n :
  wf_tree t → aliases_within D t →
  at_depth (root t) d n → at_depth (root t) d' n → d = d'.
Proof.
  intros Hwf Hal H1 H2. set (t0 := set_nodeCache ∅ t).
  assert (Hwf0 : wf_tree t0) by (by eapply same_tree_wf; [apply same_tree_set_nodeCache|]).
  assert (Hal0 : aliases_within D t0) by done.
  destruct (getLevel_of_node D _ d n H1 t0 (S (D + d + d')) eq_refl Hwf0 (cache_ok_empty t) Hal0)
    as (t1 & E1 & _); [lia|].
  destruct (getLevel_of_node D _ d' n H2 t0 (S (D + d + d')) eq_refl Hwf0 (cache_ok_empty t) Hal0)
    as (t2 & E2 & _); [lia|].
  rewrite E1 in E2. injection E2 as E2 _. lia.
Qed.

Lemma at_depth_lt_size D t d n :
  wf_tree t → aliases_within D t →
  at_depth (root t) d n → (d < length (listNodes t))%nat.
Proof.
  intros Hwf Hal Hd.
  destruct (listed_at_depth _ _ (at_depth_listed _ _ _ Hd)) as (d' & Hd' & Hlt).
  by rewrite (at_depth_unique D t d d' n Hwf Hal Hd Hd').
Qed.

(** X3: getSection(level) is empty for a null or negative level and
    is the root alone at level 0; on a well-formed tree every node of a
    section has that level by getLevel, and every node of the tree lies
    in the section of exactly one level, below the node count. *)
Theorem sections_partition_by_level (t : GameTree) (D fuel : nat) :
  wf_tree t → cache_ok t → aliases_within D t →
  (D + length (listNodes t) < fuel)%nat →
  getSection t None = []
  ∧ (∀ level, level < 0 → getSection t (Some level) = [])
  ∧ getSection t (Some 0) = [root t]
  ∧ (∀ n level, n ∈ getSection t (Some level) →
       n ∈ listNodes t
       ∧ returns (getLevel fuel (Some (id n))) t (Ok (Some level)))
  ∧ (∀ n, n ∈ listNodes t →
       ∃ level, 0 ≤ level < Z.of_nat (length (listNodes t))
                ∧ n ∈ getSection t (Some level)
                ∧ ∀ level', n ∈ getSection t (Some level') → level' = level).
Proof.
  intros Hwf Hc Hal Hf.
  assert (Hsec : ∀ n level, n ∈ getSection t (Some level) →
            0 ≤ level ∧ at_depth (root t) (Z.to_nat level) n).
  { intros n level. unfold getSection. destruct (decide (level < 0)).
    - by intros ?%elem_of_nil.
    - intros Hn%getSection_at_depth. split; [lia | done]. }
  split; [done|]. split; [intros level Hl; unfold getSection; by rewrite decide_True|].
  split; [done|]. split.
  - intros n level Hn. destruct (Hsec n level Hn) as [Hl Hd].
    split; [by eapply at_depth_listed|].
    pose proof (at_depth_lt_size D t _ n Hwf Hal Hd).
    pose proof (getLevel_of_node D _ _ n Hd t fuel eq_refl Hwf Hc Hal) as H'.
    rewrite Z2Nat.id in H' by lia. apply H'. lia.
  - intros n Hn. destruct (listed_at_depth _ _ Hn) as (d & Hd & Hlt).
    exists (Z.of_nat d). split; [unfold listNodes; lia|]. split.
    + unfold getSection. rewrite decide_False by lia. rewrite Nat2Z.id.
      by apply getSection_at_depth.
    + intros level' Hn'. destruct (Hsec n level' Hn') as [Hl Hd'].
      pose proof (at_depth_unique D t _ _ n Hwf Hal Hd Hd'). lia.
Qed.

(** ** getHeight *)

Lemma getHeight_inner_eq n :
  getHeight_inner n = 1 + foldr Z.max 0 (map getHeight_inner (children n)).
Proof.
  destruct n as [i d p cs]. cbn [getHeight_inner children]. f_equal.
  induction cs as [|c cs IH]; simpl; [done | by rewrite IH].
Qed.

Lemma foldr_max_nonneg (l : list Z) : 0 ≤ foldr Z.max 0 l.
Proof. induction l as [|a l IH]; simpl; lia. Qed.

Lemma foldr_max_lt (l : list Z) (x : Z) :
  0 ≤ x → (x < foldr Z.max 0 l ↔ ∃ a, a ∈ l ∧ x < a).
Proof.
  intros Hx. induction l as [|a l IH]; simpl.
  - split; [lia | by intros (? & ?%elem_of_nil & _)].
  - split.
    + intros H. destruct (decide (x < a)) as [Ha|Ha].
      * exists a. split; [apply list_elem_of_here | done].
      * destruct (proj1 IH) as (b & Hb & Hlt); [lia|].
        exists b. split; [by apply elem_of_cons; right | done].
    + intros (b & [->|Hb]%elem_of_cons & Hlt); [lia|].
      assert (x < foldr Z.max 0 l) by (apply IH; eauto). lia.
Qed.

Lemma getHeight_inner_pos n : 1 ≤ getHeight_inner n.
Proof. rewrite getHeight_inner_eq. pose proof (foldr_max_nonneg (map getHeight_inner (children n))). lia. Qed.

(** A level holds a node exactly when it is below the height. *)
Lemma getSection_nat_nonempty d : ∀ r,
  getSection_nat r d ≠ [] ↔ Z.of_nat d < getHeight_inner r.
Proof.
  induction d as [|d IH]; intros r.
  - pose proof (getHeight_inner_pos r). cbn [getSection_nat]. split; [lia | done].
  - rewrite getSection_nat_children, getHeight_inner_eq.
    assert (Z.of_nat (S d) < 1 + foldr Z.max 0 (map getHeight_inner (children r))
            ↔ Z.of_nat d < foldr Z.max 0 (map getHeight_inner (children r))) as -> by lia.
    rewrite foldr_max_lt by lia. split.
    + intros Hne. destruct (flat_map (λ c, getSection_nat c d) (children r)) as [|x xs] eqn:E;
        [done|].
      assert (Hx : x ∈ flat_map (λ c, getSection_nat c d) (children r))
        by (rewrite E; apply list_elem_of_here).
      rewrite list_elem_of_In, in_flat_map in Hx. destruct Hx as (c & Hc & Hx).
      exists (getHeight_inner c). split.
      * apply list_elem_of_fmap. exists c. by rewrite list_elem_of_In.
      * apply IH. intros E'. by rewrite E' in Hx.
    + intros (a & (c & -> & Hc)%list_elem_of_fmap & Hlt) E.
      apply IH in Hlt. destruct (getSection_nat c d) as [|x xs] eqn:Ex; [done|].
      assert (Hx : x ∈ flat_map (λ c, getSection_nat c d) (children r)).
      { rewrite list_elem_of_In, in_flat_map. exists c. rewrite <- !list_elem_of_In.
        split; [done|]. rewrite Ex. apply list_elem_of_here. }
      rewrite E in Hx. by apply elem_of_nil in Hx.
Qed.

Lemma getHeight_inner_le_size r :
  getHeight_inner r ≤ Z.of_nat (length (listNodes_inner r)).
Proof.
  induction r as [i d p cs IH] using Node_ind.
  rewrite getHeight_inner_eq, listNodes_inner_eq. cbn [children length].
  assert (foldr Z.max 0 (map getHeight_inner cs)
          ≤ Z.of_nat (length (flat_map listNodes_inner cs))); [|lia].
  induction IH as [|c cs' Hc _ IHcs]; simpl; [lia|].
  rewrite length_app. lia.
Qed.

(** X4: getHeight() is at least 1 and at most the node count; the
    levels that hold a node are exactly 0 .. height - 1; the value is
    memoised, so a second call returns it again, and nothing but the
    height cache changes. *)
Theorem getHeight_counts_levels (t : GameTree) :
  height_cache_ok t →
  ∃ h t',
    getHeight t = (Ok h, t')
    ∧ 1 ≤ h ≤ Z.of_nat (length (listNodes t))
    ∧ (∀ level, getSection t (Some level) ≠ [] ↔ 0 ≤ level < h)
    ∧ getHeight t' = (Ok h, t')
    ∧ t' = set_heightCache (Some h) t.
Proof.
  intros Hok.
  assert (Hh : ∃ t', getHeight t = (Ok (getHeight_inner (root t)), t')
                     ∧ t' = set_heightCache (Some (getHeight_inner (root t))) t).
  { unfold getHeight. destruct (_heightCache t) as [h|] eqn:E.
    - rewrite <- (Hok h E). eexists. split; [done|].
      destruct t. cbn in *. by rewrite E.
    - eexists. by split. }
  destruct Hh as (t' & E & ->). eexists _, _. split; [exact E|].
  split; [split; [apply getHeight_inner_pos | apply getHeight_inner_le_size]|].
  split; [|by split].
  intros level. unfold getSection. destruct (decide (level < 0)).
  - split; [done | lia].
  - rewrite getSection_nat_nonempty. lia.
Qed.

Example scenario_getHeight : fst (getHeight scenario) = Ok 3.
Proof. reflexivity. Qed.

Example scenario_getCurrentHeight :
  getCurrentHeight ∅ scenario = 3 ∧ getCurrentHeight {[0 := 2]} scenario = 2.
Proof. by vm_compute. Qed.

(** ** The current line *)

Lemma selected_child_in c n ch : selected_child c n = Some ch → ch ∈ children n.
Proof.
  unfold selected_child. destruct (c !! id n).
  - intros [H _]%find_some. by apply list_elem_of_In.
  - destruct (children n); [done|]. intros [= ->]. apply list_elem_of_here.
Qed.

Lemma current_line_eq c n :
  current_line c n =
  n :: match selected_child c n with
       | Some ch => current_line c ch
       | None => []
       end.
Proof.
  destruct n as [i d p cs]. cbn [current_line]. f_equal.
  unfold selected_child. cbn [id children]. destruct (c !! i) as [sel|].
  - induction cs as [|x cs IH]; [done|]. cbn [List.find].
    destruct (decide (id x = sel)).
    + by rewrite bool_decide_eq_true_2.
    + by rewrite bool_decide_eq_false_2.
  - by destruct cs.
Qed.

Lemma getCurrentHeight_inner_eq c n :
  getCurrentHeight_inner c n =
  1 + match selected_child c n with
      | Some ch => getCurrentHeight_inner c ch
      | None => 0
      end.
Proof.
  destruct n as [i d p cs]. cbn [getCurrentHeight_inner]. f_equal.
  unfold selected_child. cbn [id children]. destruct (c !! i) as [sel|].
  - induction cs as [|x cs IH]; [done|]. cbn [List.find].
    destruct (decide (id x = sel)).
    + by rewrite bool_decide_eq_true_2.
    + by rewrite bool_decide_eq_false_2.
  - by destruct cs.
Qed.

Lemma getCurrentHeight_inner_length c n :
  getCurrentHeight_inner c n = Z.of_nat (length (current_line c n)).
Proof.
  induction n as [i d p cs IH] using Node_ind.
  rewrite getCurrentHeight_inner_eq, current_line_eq. cbn [length].
  destruct (selected_child c (mkNode i d p cs)) as [ch|] eqn:E; [|done].
  apply selected_child_in in E. rewrite Forall_forall in IH.
  rewrite (IH ch E). lia.
Qed.

Lemma getCurrentHeight_inner_le_height c n :
  getCurrentHeight_inner c n ≤ getHeight_inner n.
Proof.
  induction n as [i d p cs IH] using Node_ind.
  rewrite getCurrentHeight_inner_eq, getHeight_inner_eq.
  pose proof (foldr_max_nonneg (map getHeight_inner (children (mkNode i d p cs)))).
  destruct (selected_child c (mkNode i d p cs)) as [ch|] eqn:E; [|lia].
  apply selected_child_in in E. rewrite Forall_forall in IH.
  specialize (IH ch E). cbn [children] in *.
  destruct (decide (getHeight_inner ch ≤ foldr Z.max 0 (map getHeight_inner cs))); [lia|].
  assert (foldr Z.max 0 (map getHeight_inner cs) < foldr Z.max 0 (map getHeight_inner cs));
    [|lia].
  apply foldr_max_lt; [lia|]. exists (getHeight_inner ch). split; [|lia].
  apply list_elem_of_fmap. eauto.
Qed.

Lemma current_line_self c n : n ∈ current_line c n.
Proof. rewrite current_line_eq. apply list_elem_of_here. Qed.

Lemma current_line_listed c r m : m ∈ current_line c r → m ∈ listNodes_inner r.
Proof.
  induction r as [i d p cs IH] using Node_ind. rewrite current_line_eq.
  intros [->|Hm]%elem_of_cons; [apply self_listed|].
  destruct (selected_child c (mkNode i d p cs)) as [ch|] eqn:E;
    [|by apply elem_of_nil in Hm].
  apply selected_child_in in E. rewrite Forall_forall in IH.
  eapply listed_trans; [by apply child_listed | by apply IH].
Qed.

Lemma current_line_inv c r m :
  m ∈ current_line c r →
  m = r ∨ ∃ q, q ∈ current_line c r ∧ selected_child c q = Some m.
Proof.
  induction r as [i d p cs IH] using Node_ind. rewrite current_line_eq.
  intros [->|Hm]%elem_of_cons; [by left|]. right.
  destruct (selected_child c (mkNode i d p cs)) as [ch|] eqn:E;
    [|by apply elem_of_nil in Hm].
  pose proof (selected_child_in _ _ _ E) as Hch. rewrite Forall_forall in IH.
  destruct (IH ch Hch Hm) as [->|(q & Hq & Hsel)].
  - eexists. split; [apply list_elem_of_here | done].
  - exists q. split; [by apply elem_of_cons; right | done].
Qed.

Lemma current_line_step c r q m :
  q ∈ current_line c r → selected_child c q = Some m → m ∈ current_line c r.
Proof.
  induction r as [i d p cs IH] using Node_ind. rewrite current_line_eq.
  intros [->|Hq]%elem_of_cons Hsel.
  - rewrite Hsel. apply elem_of_cons. right. apply current_line_self.
  - destruct (selected_child c (mkNode i d p cs)) as [ch|] eqn:E;
      [|by apply elem_of_nil in Hq].
    pose proof (selected_child_in _ _ _ E) as Hch. rewrite Forall_forall in IH.
    apply elem_of_cons. right. by apply (IH ch Hch).
Qed.

(** In a well-formed tree the selected child is the child with the
    selected identifier, or the first child. *)
Lemma selected_child_spec t c p x :
  wf_tree t → p ∈ listNodes_inner (root t) → x ∈ children p →
  selected_child c p = Some x
  ↔ match c !! id p with
    | Some sel => id x = sel
    | None => head (children p) = Some x
    end.
Proof.
  intros Hwf Hp Hx. unfold selected_child. destruct (c !! id p) as [sel|]; [|done].
  split.
  - intros [_ H]%find_some. by apply bool_decide_eq_true in H.
  - intros Hid.
    destruct (List.find (λ child, bool_decide (id child = sel)) (children p)) as [y|] eqn:E.
    + apply find_some in E as [Hy%list_elem_of_In Hyid%bool_decide_eq_true]. f_equal.
      apply (NoDup_ids_inj (listNodes_inner (root t)));
        [apply Hwf | by eapply children_listed | by eapply children_listed | congruence].
    + apply list_elem_of_In in Hx. pose proof (find_none _ _ E x Hx) as Hf.
      simpl in Hf. apply bool_decide_eq_false in Hf. done.
Qed.

Lemma current_line_child t c p x :
  wf_tree t → p ∈ listNodes_inner (root t) → x ∈ children p →
  x ∈ current_line c (root t)
  ↔ selected_child c p = Some x ∧ p ∈ current_line c (root t).
Proof.
  intros Hwf Hp Hx. split.
  - intros [->|(q & Hq & Hsel)]%current_line_inv.
    { exfalso. by eapply (wf_child_not_root t p (root t)). }
    assert (q = p) as ->; [|done].
    pose proof (current_line_listed _ _ _ Hq) as Hql.
    pose proof (selected_child_in _ _ _ Hsel) as Hxq.
    apply (NoDup_ids_inj (listNodes_inner (root t))); [apply Hwf | done | done |].
    pose proof (wf_child_parentId t q x Hwf Hql Hxq).
    pose proof (wf_child_parentId t p x Hwf Hp Hx). congruence.
  - intros [Hsel Hp']. by eapply current_line_step.
Qed.

Lemma same_tree_currents_ok t t' c :
  same_tree t t' → currents_ok t c → currents_ok t' c.
Proof. intros (Hr & _) H n sel Hn. apply H. unfold listNodes in *. by rewrite <- Hr. Qed.

Lemma next_node_selected D t c n :
  wf_tree t → currents_ok t c → n ∈ listNodes_inner (root t) →
  next_node D t c n = selected_child c n.
Proof.
  intros Hwf Hok Hn. unfold next_node.
  destruct (c !! id n) as [sel|] eqn:E; [|unfold selected_child; by rewrite E].
  destruct (Hok n sel Hn E) as (ch & Hch & <-).
  rewrite lookup_listed by (done || by eapply children_listed).
  symmetry. apply (selected_child_spec t c n ch Hwf Hn Hch). by rewrite E.
Qed.

(** ** listCurrentNodes *)

Lemma vertical_loop_current D c n : ∀ t f,
  wf_tree t → cache_ok t → aliases_within D t → currents_ok t c →
  n ∈ listNodes_inner (root t) →
  (D + length (listNodes_inner n) + 2 ≤ f)%nat →
  yields (vertical_loop f (Some n) 1 (Some c)) t (trace_of (current_line c n)).
Proof.
  induction n as [j d p cs IH] using Node_ind. intros t f Hwf Hc Hal Hok Hn Hf.
  destruct f as [|f]; [lia|]. set (n := mkNode j d p cs) in *.
  rewrite current_line_eq. cbn [trace_of foldr vertical_loop].
  apply yields_yield_then.
  assert (Hlen : (1 ≤ length (listNodes_inner n))%nat)
    by (rewrite listNodes_inner_eq; simpl; lia).
  eapply yields_gbind.
  { pose proof (navigate_down D c 1 t f (Some (id n)) Hwf Hc Hal) as H.
    rewrite (lookup_listed D t n Hwf Hn) in H. apply H. lia. }
  intros t' Hs Hc'. cbn [descend]. rewrite (next_node_selected D t c n Hwf Hok Hn).
  destruct (selected_child c n) as [ch|] eqn:E.
  - pose proof (selected_child_in _ _ _ E) as Hch.
    rewrite Forall_forall in IH. apply (IH ch Hch);
      [by eapply same_tree_wf | done | by eapply same_tree_aliases_within
      | by eapply same_tree_currents_ok | |].
    + rewrite (proj1 Hs). by eapply children_listed.
    + pose proof (flat_map_length_le ch cs Hch).
      rewrite (listNodes_inner_eq n) in Hf. cbn [n children length] in Hf. lia.
  - destruct f as [|f]; [lia|]. by apply yields_done.
Qed.

Lemma listCurrentNodes_unfold f c t :
  listCurrentNodes f (Some c) t =
  gbind (get f (Some (id (root t)))) (λ node, vertical_loop f node 1 (Some c)) t.
Proof. done. Qed.

Lemma listCurrentNodes_current_line D t c f :
  wf_tree t → cache_ok t → aliases_within D t → currents_ok t c →
  (D + length (listNodes t) + 2 ≤ f)%nat →
  yields (listCurrentNodes f (Some c)) t (trace_of (current_line c (root t))).
Proof.
  intros Hwf Hc Hal Hok Hf. unfold yields. rewrite listCurrentNodes_unfold.
  fold (yields (gbind (get f (Some (id (root t))))
                  (λ node, vertical_loop f node 1 (Some c))) t
               (trace_of (current_line c (root t)))).
  eapply yields_gbind.
  { apply (get_lookup D); [apply Hwf | done | done | lia]. }
  intros t' Hs Hc'. rewrite (lookup_listed D t (root t) Hwf (self_listed _)).
  rewrite <- (proj1 Hs).
  apply (vertical_loop_current D); [by eapply same_tree_wf | done
    | by eapply same_tree_aliases_within | by eapply same_tree_currents_ok
    | apply self_listed |].
  rewrite (proj1 Hs). exact Hf.
Qed.

(** X5: getCurrentHeight(currents) is at least 1 and at most the
    height of the tree; when every selection in currents names a child of
    its node, listCurrentNodes(currents) yields the root and then the
    selected (else first) child at each node, ends normally, and the
    number of nodes it yields is getCurrentHeight(currents). *)
Theorem getCurrentHeight_counts_current_line
    (t : GameTree) (D fuel : nat) (currents : gmap Z Z) :
  wf_tree t → cache_ok t → aliases_within D t → currents_ok t currents →
  (D + length (listNodes t) + 2 ≤ fuel)%nat →
  1 ≤ getCurrentHeight currents t ≤ getHeight_inner (root t)
  ∧ yields (listCurrentNodes fuel (Some currents)) t
      (trace_of (current_line currents (root t)))
  ∧ Z.of_nat (length (yielded (fst (listCurrentNodes fuel (Some currents) t))))
    = getCurrentHeight currents t.
Proof.
  intros Hwf Hc Hal Hok Hf.
  pose proof (listCurrentNodes_current_line D t currents fuel Hwf Hc Hal Hok Hf) as Hy.
  split; [|split; [exact Hy|]].
  - unfold getCurrentHeight. split; [|apply getCurrentHeight_inner_le_height].
    rewrite getCurrentHeight_inner_eq.
    destruct (selected_child currents (root t)) as [ch|]; [|lia].
    rewrite getCurrentHeight_inner_length. lia.
  - destruct Hy as (t' & -> & _). cbn [fst]. rewrite yielded_trace_of.
    unfold getCurrentHeight. by rewrite getCurrentHeight_inner_length.
Qed.

(** ** onCurrentLine with a selection *)

Lemma onCurrentLine_unfold f i c t :
  onCurrentLine (S f) i c t =
  bind (get f i)
    (λ node,
       match node with
       | None => throw TypeError
       | Some node =>
           match parentId node with
           | None => ret true
           | Some pid =>
               bind
                 match c !! pid with
                 | Some sel => ret (bool_decide (id node = sel))
                 | None =>
                     bind (get f (Some pid))
                       (λ parent,
                          match parent with
                          | None => throw TypeError
                          | Some parent =>
                              ret match children parent with
                                  | first :: _ => Node_eqb first node
                                  | [] => false
                                  end
                          end)
                 end
                 (λ selected : bool,
                    if selected then onCurrentLine f (Some pid) c else ret false)
           end
       end) t.
Proof. done. Qed.

(** The test onCurrentLine makes at the parent [p] of [x]. *)
Lemma selection_test D t c p x f :
  wf_tree t → cache_ok t → aliases_within D t → (D ≤ f)%nat →
  p ∈ listNodes_inner (root t) → x ∈ children p →
  ∃ b, returns
         match c !! id p with
         | Some sel => ret (bool_decide (id x = sel))
         | None =>
             bind (get f (Some (id p)))
               (λ parent,
                  match parent with
                  | None => throw TypeError
                  | Some parent =>
                      ret match children parent with
                          | first :: _ => Node_eqb first x
                          | [] => false
                          end
                  end)
         end t (Ok b)
       ∧ (b = true ↔ selected_child c p = Some x).
Proof.
  intros Hwf Hc Hal Hf Hp Hx.
  pose proof (selected_child_spec t c p x Hwf Hp Hx) as Hspec.
  destruct (c !! id p) as [sel|].
  - exists (bool_decide (id x = sel)). split; [by apply returns_ret|].
    by rewrite bool_decide_eq_true, Hspec.
  - exists (match children p with first :: _ => Node_eqb first x | [] => false end).
    split.
    + eapply returns_bind.
      { apply (get_lookup D); [apply Hwf | done | done | done]. }
      intros t' Hs Hc'. rewrite (lookup_listed D t p Hwf Hp). by apply returns_ret.
    + rewrite Hspec. destruct (children p) as [|y ys]; cbn [head]; [done|].
      rewrite Node_eqb_eq. split; congruence.
Qed.

Lemma onCurrentLine_node D c r d n :
  at_depth r d n → ∀ t f i,
  root t = r → wf_tree t → cache_ok t → aliases_within D t →
  lookup_node D t i = Some n →
  (D + d < f)%nat →
  ∃ b, returns (onCurrentLine f i c) t (Ok b) ∧ (b = true ↔ n ∈ current_line c r).
Proof.
  induction 1 as [|d p x Hp IH Hx]; intros t f i Hr Hwf Hok Hal Hi Hf;
    (destruct f as [|f]; [lia|]); subst r.
  - exists true. split; [|split; [intros _; apply current_line_self | done]].
    unfold returns. rewrite onCurrentLine_unfold.
    fold (returns (A:=bool)). eapply returns_bind.
    { apply (get_lookup D); [apply Hwf | done | done | lia]. }
    intros t' Hs Hc'. rewrite Hi, (wf_root t Hwf). by apply returns_ret.
  - pose proof (at_depth_listed _ _ _ Hp) as Hpl.
    pose proof (current_line_child t c p x Hwf Hpl Hx) as Hiff.
    assert (Hget : returns (get f i) t (Ok (Some x))).
    { rewrite <- Hi. apply (get_lookup D); [apply Hwf | done | done | lia]. }
    destruct Hget as (t1 & E1 & Hs1 & Hc1).
    assert (Hwf1 : wf_tree t1) by (by eapply same_tree_wf).
    assert (Hal1 : aliases_within D t1) by (by eapply same_tree_aliases_within).
    assert (Hpl1 : p ∈ listNodes_inner (root t1)) by (by rewrite (proj1 Hs1)).
    destruct (selection_test D t1 c p x f Hwf1 Hc1 Hal1) as (b1 & (t2 & E2 & Hs2 & Hc2) & Hb1);
      [lia | done | done |].
    assert (Hs12 : same_tree t t2) by (by eapply same_tree_trans).
    assert (Hsel1 : selected_child c p = Some x ↔ b1 = true) by (by symmetry).
    destruct b1.
    + destruct (IH t2 f (Some (id p))) as (b & (t3 & E3 & Hs3 & Hc3) & Hb);
        [apply Hs12 | by eapply same_tree_wf | done | by eapply same_tree_aliases_within
        | apply lookup_listed; [by eapply same_tree_wf | by rewrite (proj1 Hs12)] | lia |].
      exists b. split.
      * exists t3. rewrite onCurrentLine_unfold. unfold bind at 1. rewrite E1.
        rewrite (wf_child_parentId t p x Hwf Hpl Hx). unfold bind at 1.
        rewrite E2, E3. split; [done|]. split; [by eapply same_tree_trans | done].
      * rewrite Hb, Hiff. split; [intros ?; split; [by apply Hsel1 | done] | by intros [_ ?]].
    + exists false. split.
      * exists t2. rewrite onCurrentLine_unfold. unfold bind at 1. rewrite E1.
        rewrite (wf_child_parentId t p x Hwf Hpl Hx). unfold bind at 1.
        rewrite E2. split; [done|]. split; [done | done].
      * split; [done|]. rewrite Hiff. intros [Hsel _]. by apply Hsel1 in Hsel.
Qed.

(** X6: when every selection in currents names a child of its node,
    onCurrentLine(id, currents) returns true exactly when id resolves to
    a node that listCurrentNodes(currents) yields, and false for every
    other node of the tree. *)
Theorem onCurrentLine_iff_on_listCurrentNodes
    (t : GameTree) (D fuel : nat) (i : option Z) (currents : gmap Z Z) (n : Node) :
  wf_tree t → cache_ok t → aliases_within D t → currents_ok t currents →
  (D + length (listNodes t) + 2 ≤ fuel)%nat →
  lookup_node D t i = Some n →
  ∃ b, returns (onCurrentLine fuel i currents) t (Ok b)
       ∧ (b = true ↔ n ∈ yielded (fst (listCurrentNodes fuel (Some currents) t))).
Proof.
  intros Hwf Hc Hal Hok Hf Hi.
  destruct (listCurrentNodes_current_line D t currents fuel Hwf Hc Hal Hok Hf)
    as (tm & -> & _).
  cbn [fst]. rewrite yielded_trace_of.
  destruct (listed_at_depth _ _ (lookup_node_listed _ _ _ _ Hi)) as (d & Hd & Hlt).
  apply (onCurrentLine_node D currents (root t) d n Hd t fuel i eq_refl Hwf Hc Hal Hi).
  unfold listNodes in Hf. lia.
Qed.

(** ** Up the parent chain *)

Lemma parent_in_child t p x :
  wf_tree t → p ∈ listNodes_inner (root t) → x ∈ children p →
  parent_in (root t) x = Some p.
Proof.
  intros Hwf Hp Hx.
  destruct (parent_cases t x Hwf (children_listed _ _ _ Hp Hx))
    as [(-> & _)|(q & Hq & Hxq & Hpar & ->)].
  - exfalso. by eapply (wf_child_not_root t p (root t)).
  - f_equal. apply (NoDup_ids_inj (listNodes_inner (root t))); [apply Hwf | done | done |].
    pose proof (wf_child_parentId t p x Hwf Hp Hx). congruence.
Qed.

Lemma parent_in_root t : wf_tree t → parent_in (root t) (root t) = None.
Proof.
  intros Hwf. destruct (parent_cases t (root t) Hwf (self_listed _))
    as [(_ & _ & ->)|(q & Hq & Hxq & _)]; [done|].
  exfalso. by eapply (wf_child_not_root t q (root t)).
Qed.

Lemma ancestor_snoc r k : ∀ m x,
  ancestor r k m = Some x → ancestor r (S k) m = parent_in r x.
Proof.
  induction k as [|k IH]; intros m x.
  - intros [= ->]. cbn [ancestor]. by destruct (parent_in r x).
  - cbn [ancestor]. destruct (parent_in r m) as [p|]; [|done]. apply (IH p).
Qed.

Lemma ancestor_at_depth t d n :
  wf_tree t → at_depth (root t) d n →
  ancestor (root t) d n = Some (root t) ∧ ancestor (root t) (S d) n = None.
Proof.
  intros Hwf Hd. assert (H : ancestor (root t) d n = Some (root t)).
  { induction Hd as [|d p x Hp IH Hx]; [done|]. cbn [ancestor].
    by rewrite (parent_in_child t p x Hwf (at_depth_listed _ _ _ Hp) Hx). }
  split; [done|]. rewrite (ancestor_snoc _ _ _ _ H). by apply parent_in_root.
Qed.

Lemma vertical_loop_up D r d n :
  at_depth r d n → ∀ t f cur,
  root t = r → wf_tree t → cache_ok t → aliases_within D t →
  (D + d + 3 ≤ f)%nat →
  ∃ l, yields (vertical_loop f (Some n) (-1) cur) t (trace_of l)
       ∧ length l = S d
       ∧ ∀ k, (k ≤ d)%nat → l !! k = ancestor r k n.
Proof.
  induction 1 as [|d p x Hp IH Hx]; intros t f cur Hr Hwf Hc Hal Hf;
    (destruct f as [|f]; [lia|]); subst r.
  - exists [root t]. split; [|split; [done|]].
    + cbn [vertical_loop trace_of foldr]. apply yields_yield_then.
      eapply yields_gbind.
      { pose proof (navigate_up D t 1 f (Some (id (root t))) cur Hwf Hc Hal) as H.
        rewrite (lookup_listed D t _ Hwf (self_listed _)) in H. apply H. lia. }
      intros t' Hs Hc'. cbn [ancestor]. rewrite (parent_in_root t Hwf).
      destruct f as [|f]; [lia|]. by apply yields_done.
    + intros k Hk. by replace k with O by lia.
  - pose proof (at_depth_listed _ _ _ Hp) as Hpl.
    pose proof (children_listed _ _ _ Hpl Hx) as Hxl.
    assert (Hnav : returns (navigate f (Some (id x)) (-1) cur) t (Ok (Some p))).
    { pose proof (navigate_up D t 1 f (Some (id x)) cur Hwf Hc Hal) as H.
      rewrite (lookup_listed D t _ Hwf Hxl) in H. cbn [ancestor] in H.
      rewrite (parent_in_child t p x Hwf Hpl Hx) in H. apply H. lia. }
    destruct Hnav as (t1 & E1 & Hs1 & Hc1).
    destruct (IH t1 f cur) as (l & (t2 & E2 & Hs2 & Hc2) & Hlen & Hl);
      [apply Hs1 | by eapply same_tree_wf | done | by eapply same_tree_aliases_within | lia |].
    exists (x :: l). split; [|split; [simpl; lia|]].
    + exists t2. cbn [vertical_loop trace_of foldr]. unfold yield_then, gbind.
      rewrite E1, E2. split; [done|]. split; [by eapply same_tree_trans | done].
    + intros [|k] Hk; [done|]. cbn [ancestor].
      rewrite (parent_in_child t p x Hwf Hpl Hx). apply Hl. lia.
Qed.

(** X7: listNodesVertically(id, -1, currents) yields the node id
    resolves to and then its parent chain up to the root: one node per
    level, the k-th one the ancestor k levels up, the last one the root;
    currents plays no part. *)
Theorem listNodesVertically_up_is_path_to_root
    (t : GameTree) (D fuel : nat) (i : option Z) (cur : option (gmap Z Z))
    (n : Node) (d : nat) :
  wf_tree t → cache_ok t → aliases_within D t →
  lookup_node D t i = Some n → at_depth (root t) d n →
  (D + d + 3 ≤ fuel)%nat →
  ∃ l, yields (listNodesVertically fuel i (-1) cur) t (trace_of l)
       ∧ length l = S d
       ∧ (∀ k, (k ≤ d)%nat → l !! k = ancestor (root t) k n)
       ∧ head l = Some n
       ∧ last l = Some (root t).
Proof.
  intros Hwf Hc Hal Hi Hd Hf.
  assert (Hget : returns (get fuel i) t (Ok (Some n))).
  { rewrite <- Hi. apply (get_lookup D); [apply Hwf | done | done | lia]. }
  destruct Hget as (t1 & E1 & Hs1 & Hc1).
  destruct (vertical_loop_up D (root t) d n Hd t1 fuel cur)
    as (l & (t2 & E2 & Hs2 & Hc2) & Hlen & Hl);
    [apply Hs1 | by eapply same_tree_wf | done | by eapply same_tree_aliases_within | done |].
  exists l. split; [|split; [done|split; [done|split]]].
  - exists t2. unfold listNodesVertically. rewrite decide_False by lia.
    unfold gbind. rewrite E1, E2. split; [done|]. split; [by eapply same_tree_trans | done].
  - rewrite head_lookup. by rewrite (Hl O) by lia.
  - rewrite last_lookup, Hlen. cbn [Nat.pred]. rewrite Hl by lia.
    by apply ancestor_at_depth.
Qed.

(** ** Down and back up *)

Lemma descend_ancestor D t c k : ∀ n m,
  wf_tree t → currents_ok t c → n ∈ listNodes_inner (root t) →
  descend D t c k n = Some m →
  ancestor (root t) k m = Some n ∧ m ∈ listNodes_inner (root t).
Proof.
  induction k as [|k IH]; intros n m Hwf Hok Hn; cbn [descend].
  - by intros [= <-].
  - rewrite (next_node_selected D t c n Hwf Hok Hn).
    destruct (selected_child c n) as [x|] eqn:E; [|done]. intros Hm.
    pose proof (selected_child_in _ _ _ E) as Hx.
    destruct (IH x m Hwf Hok (children_listed _ _ _ Hn Hx) Hm) as [Ha Hml].
    split; [|done]. rewrite (ancestor_snoc _ _ _ _ Ha).
    by apply (parent_in_child t n x).
Qed.

(** X8: when every selection in currents names a child of its node,
    going down k >= 0 steps with navigate and then k steps up from the
    node reached leads back to the start. *)
Theorem navigate_down_then_up_returns
    (t : GameTree) (D fuel : nat) (i : option Z) (step : Z)
    (currents : gmap Z Z) (cur : option (gmap Z Z)) (n m : Node) (t1 : GameTree) :
  wf_tree t → cache_ok t → aliases_within D t → currents_ok t currents →
  lookup_node D t i = Some n →
  0 ≤ step → (D + Z.to_nat step < fuel)%nat →
  navigate fuel i step (Some currents) t = (Ok (Some m), t1) →
  returns (navigate fuel (Some (id m)) (- step) cur) t1 (Ok (Some n)).
Proof.
  intros Hwf Hc Hal Hok Hi Hstep Hf E.
  destruct (navigate_down D currents (Z.to_nat step) t fuel i Hwf Hc Hal Hf)
    as (t' & E' & Hs & Hc').
  rewrite Z2Nat.id, E, Hi in E' by done. injection E' as Hm ->.
  destruct (descend_ancestor D t currents _ n m Hwf Hok
              (lookup_node_listed _ _ _ _ Hi) (eq_sym Hm)) as [Ha Hml].
  assert (Hwf' : wf_tree t') by (by eapply same_tree_wf).
  pose proof (navigate_up D t' (Z.to_nat step) fuel (Some (id m)) cur Hwf' Hc'
                (same_tree_aliases_within _ _ _ Hs Hal) Hf) as H.
  rewrite Z2Nat.id in H by done.
  rewrite lookup_listed in H by (done || by rewrite (proj1 Hs)).
  by rewrite (proj1 Hs), Ha in H.
Qed.

(** X9: for a node of the tree, navigating up by the level getLevel
    reports reaches the root, and one step more gives absent. *)
Theorem navigate_up_by_level_reaches_root
    (t : GameTree) (D fuel : nat) (n : Node) (cur : option (gmap Z Z))
    (l : Z) (t1 : GameTree) :
  wf_tree t → cache_ok t → aliases_within D t →
  (D + length (listNodes t) + 1 < fuel)%nat →
  n ∈ listNodes t →
  getLevel fuel (Some (id n)) t = (Ok (Some l), t1) →
  0 ≤ l
  ∧ returns (navigate fuel (Some (id n)) (- l) cur) t1 (Ok (Some (root t)))
  ∧ returns (navigate fuel (Some (id n)) (- (l + 1)) cur) t1 (Ok None).
Proof.
  intros Hwf Hc Hal Hf Hn E.
  destruct (listed_at_depth _ _ Hn) as (d & Hd & Hlt).
  destruct (getLevel_of_node D _ d n Hd t fuel eq_refl Hwf Hc Hal) as (t' & E' & Hs & Hc');
    [unfold listNodes in Hf; lia|].
  rewrite E in E'. injection E' as -> ->.
  assert (Hwf' : wf_tree t') by (by eapply same_tree_wf).
  assert (Hal' : aliases_within D t') by (by eapply same_tree_aliases_within).
  assert (Hn' : n ∈ listNodes_inner (root t')) by (by rewrite (proj1 Hs)).
  destruct (ancestor_at_depth t d n Hwf Hd) as [Ha1 Ha2].
  split; [lia|]. split.
  - pose proof (navigate_up D t' d fuel (Some (id n)) cur Hwf' Hc' Hal') as H.
    rewrite (lookup_listed D t' n Hwf' Hn'), (proj1 Hs), Ha1 in H.
    apply H. unfold listNodes in Hf. lia.
  - pose proof (navigate_up D t' (S d) fuel (Some (id n)) cur Hwf' Hc' Hal') as H.
    rewrite (lookup_listed D t' n Hwf' Hn'), (proj1 Hs), Ha2 in H.
    replace (- (Z.of_nat d + 1)) with (- Z.of_nat (S d)) by lia.
    apply H. unfold listNodes in Hf. lia.
Qed.

(** ** The loops of listNodesHorizontally *)

Lemma at_index_nat (section : list Node) (k : nat) :
  at_index section (Z.of_nat k) = section !! k.
Proof. unfold at_index. rewrite decide_True by lia. by rewrite Nat2Z.id. Qed.

Lemma at_index_neg (section : list Node) (z : Z) : z < 0 → at_index section z = None.
Proof. intros H. unfold at_index. by rewrite decide_False by lia. Qed.

Lemma at_index_zero (section : list Node) : at_index section 0 = head section.
Proof. by destruct section. Qed.

Lemma or_zero_Some (x : Z) : or_zero (Some x) = x.
Proof. done. Qed.

Lemma trace_of_app l1 l2 : trace_of (l1 ++ l2) = foldr Yield (trace_of l2) l1.
Proof. unfold trace_of. by rewrite foldr_app. Qed.

(** A row walked forward from position [k] yields the rest of the row. *)
Lemma row_loop_forward f : ∀ section k after,
  (k ≤ length section)%nat → (length section - k < f)%nat →
  row_loop f section (Z.of_nat k) 1 after = foldr Yield after (drop k section).
Proof.
  induction f as [|f IH]; intros section k after Hk Hf; [lia|].
  cbn [row_loop]. destruct (decide (k = length section)) as [->|Hne].
  - rewrite decide_False by lia. by rewrite drop_all.
  - rewrite decide_True by lia. rewrite at_index_nat.
    destruct (lookup_lt_is_Some_2 section k) as [x Hx]; [lia|].
    rewrite Hx, (drop_S _ _ _ Hx). cbn [foldr]. f_equal.
    replace (Z.of_nat k + 1) with (Z.of_nat (S k)) by lia.
    apply IH; lia.
Qed.

(** A row walked backward from position [k - 1] yields its first [k]
    nodes, last first. *)
Lemma row_loop_backward f : ∀ section k after,
  (k ≤ length section)%nat → (k < f)%nat →
  row_loop f section (Z.of_nat k - 1) (-1) after
  = foldr Yield after (reverse (take k section)).
Proof.
  induction f as [|f IH]; intros section k after Hk Hf; [lia|].
  cbn [row_loop]. destruct k as [|k].
  - rewrite decide_False by lia. done.
  - rewrite decide_True by lia.
    replace (Z.of_nat (S k) - 1) with (Z.of_nat k) by lia. rewrite at_index_nat.
    destruct (lookup_lt_is_Some_2 section k) as [x Hx]; [lia|].
    rewrite Hx, (take_S_r _ _ _ Hx), reverse_app. cbn [reverse foldr app].
    change (reverse [x]) with [x]. cbn [app foldr]. f_equal.
    replace (Z.of_nat k + -1) with (Z.of_nat k - 1) by lia.
    apply IH; lia.
Qed.

Lemma flat_map_length_mono {A} (f g : A → list Node) (l : list A) :
  (∀ a, (length (f a) ≤ length (g a))%nat) →
  (length (flat_map f l) ≤ length (flat_map g l))%nat.
Proof.
  intros H. induction l as [|a l IH]; simpl; [done|].
  rewrite !length_app. specialize (H a). lia.
Qed.

Lemma getSection_nat_length d : ∀ r,
  (length (getSection_nat r d) ≤ length (listNodes_inner r))%nat.
Proof.
  induction d as [|d IH]; intros r.
  - rewrite listNodes_inner_eq. simpl. lia.
  - rewrite getSection_nat_children, listNodes_inner_eq. cbn [length].
    pose proof (flat_map_length_mono (λ c, getSection_nat c d) listNodes_inner
                  (children r) (IH)). lia.
Qed.

Lemma levels_spec r d : getSection_nat r d ≠ [] ↔ (d < levels r)%nat.
Proof.
  rewrite getSection_nat_nonempty. unfold levels.
  pose proof (getHeight_inner_pos r). lia.
Qed.

Lemma getSection_Some_nat t d :
  getSection t (Some (Z.of_nat d)) = getSection_nat (root t) d.
Proof. unfold getSection. rewrite decide_False by lia. by rewrite Nat2Z.id. Qed.

(** Going deeper from the start of level [d]: all the levels from [d]
    on, each from its first node to its last. *)
Lemma section_loop_down_from_start t k : ∀ d f,
  (d + k = levels (root t))%nat →
  (k + length (listNodes_inner (root t)) + 2 ≤ f)%nat →
  section_loop f t (getSection_nat (root t) d) 0 (Some (Z.of_nat d)) 1
  = trace_of (sections_down (root t) d k).
Proof.
  induction k as [|k IH]; intros d f Hd Hf; (destruct f as [|f]; [lia|]);
    cbn [section_loop sections_down].
  - assert (getSection_nat (root t) d = []) as ->.
    { destruct (getSection_nat (root t) d) eqn:E; [done|].
      assert (d < levels (root t))%nat; [|lia]. apply levels_spec. by rewrite E. }
    done.
  - rewrite at_index_zero.
    destruct (head (getSection_nat (root t) d)) as [x|] eqn:Ex.
    2:{ exfalso. assert (getSection_nat (root t) d ≠ []) as Hne by (apply levels_spec; lia).
        destruct (getSection_nat (root t) d); [done | discriminate Ex]. }
    pose proof (getSection_nat_length d (root t)) as Hlen.
    rewrite (row_loop_forward f _ O) by lia. rewrite drop_0, trace_of_app. f_equal.
    rewrite !decide_True by lia. rewrite or_zero_Some.
    replace (Z.of_nat d + 1) with (Z.of_nat (S d)) by lia.
    rewrite <- flat_map_concat_map.
    change (flat_map children (getSection_nat (root t) d))
      with (getSection_nat (root t) (S d)).
    apply IH; lia.
Qed.

(** Going deeper from position [idx] of level [d]. *)
Lemma section_loop_down t d idx f :
  (d < levels (root t))%nat → (idx < length (getSection_nat (root t) d))%nat →
  (levels (root t) + length (listNodes_inner (root t)) + 2 ≤ f)%nat →
  section_loop f t (getSection_nat (root t) d) (Z.of_nat idx) (Some (Z.of_nat d)) 1
  = trace_of (drop idx (getSection_nat (root t) d)
              ++ sections_down (root t) (S d) (levels (root t) - S d)).
Proof.
  intros Hd Hidx Hf. destruct f as [|f]; [lia|]. cbn [section_loop].
  rewrite at_index_nat. destruct (lookup_lt_is_Some_2 _ _ Hidx) as [x ->].
  pose proof (getSection_nat_length d (root t)) as Hlen.
  rewrite row_loop_forward by lia. rewrite trace_of_app. f_equal.
  rewrite !decide_True by lia. rewrite or_zero_Some.
  replace (Z.of_nat d + 1) with (Z.of_nat (S d)) by lia.
  rewrite <- flat_map_concat_map.
  change (flat_map children (getSection_nat (root t) d))
    with (getSection_nat (root t) (S d)).
  apply section_loop_down_from_start; lia.
Qed.

(** Going up from the end of level [d]: the levels [d], [d - 1], ...,
    0, each from its last node to its first. *)
Lemma section_loop_up_from_end t d : ∀ f,
  (d < levels (root t))%nat →
  (d + length (listNodes_inner (root t)) + 3 ≤ f)%nat →
  section_loop f t (getSection_nat (root t) d)
    (Z.of_nat (length (getSection_nat (root t) d)) - 1) (Some (Z.of_nat d)) (-1)
  = trace_of (sections_up (root t) d).
Proof.
  induction d as [|d IH]; intros f Hd Hf; (destruct f as [|f]; [lia|]).
  - cbn [section_loop getSection_nat length sections_up]. cbn [at_index].
    rewrite row_loop_backward with (k := 1%nat) by (simpl; lia).
    destruct f as [|f]; [lia|]. done.
  - assert (Hne : getSection_nat (root t) (S d) ≠ []) by (by apply levels_spec).
    pose proof (getSection_nat_length (S d) (root t)) as Hlen.
    set (section := getSection_nat (root t) (S d)) in *.
    cbn [section_loop sections_up].
    assert (Hlast : at_index section (Z.of_nat (length section) - 1) = last section).
    { destruct section as [|x xs] eqn:E; [done|].
      replace (Z.of_nat (length (x :: xs)) - 1) with (Z.of_nat (length xs))
        by (cbn [length]; lia).
      rewrite at_index_nat, last_lookup. done. }
    rewrite Hlast. destruct (last section) as [x|] eqn:Ex.
    2:{ apply last_None in Ex. done. }
    rewrite row_loop_backward by lia. rewrite firstn_all, trace_of_app. f_equal.
    rewrite !decide_False by lia. rewrite or_zero_Some.
    replace (Z.of_nat (S d) + -1) with (Z.of_nat d) by lia.
    rewrite getSection_Some_nat. apply IH; lia.
Qed.

(** Going up from position [idx] of level [d]. *)
Lemma section_loop_up t d idx f :
  (d < levels (root t))%nat → (idx < length (getSection_nat (root t) d))%nat →
  (d + length (listNodes_inner (root t)) + 3 ≤ f)%nat →
  section_loop f t (getSection_nat (root t) d) (Z.of_nat idx) (Some (Z.of_nat d)) (-1)
  = trace_of (reverse (take (S idx) (getSection_nat (root t) d))
              ++ match d with
                 | O => []
                 | S d' => sections_up (root t) d'
                 end).
Proof.
  intros Hd Hidx Hf. destruct f as [|f]; [lia|]. cbn [section_loop].
  rewrite at_index_nat. destruct (lookup_lt_is_Some_2 _ _ Hidx) as [x ->].
  pose proof (getSection_nat_length d (root t)) as Hlen.
  replace (Z.of_nat idx) with (Z.of_nat (S idx) - 1) by lia.
  rewrite row_loop_backward by lia. rewrite trace_of_app. f_equal.
  rewrite !decide_False by lia. rewrite or_zero_Some.
  destruct d as [|d].
  - destruct f as [|f]; [lia|]. done.
  - replace (Z.of_nat (S d) + -1) with (Z.of_nat d) by lia.
    rewrite getSection_Some_nat. apply section_loop_up_from_end; lia.
Qed.

(** ** listNodesHorizontally *)

Lemma findIndex_none i l :
  (∀ y, y ∈ l → Some (id y) ≠ i) → findIndex i l = -1.
Proof.
  induction l as [|a l IH]; intros H; cbn [findIndex]; [done|].
  rewrite decide_False by (apply H, list_elem_of_here).
  rewrite IH by (intros y Hy; apply H; by apply elem_of_cons; right).
  by rewrite decide_True by lia.
Qed.

Lemma findIndex_first i l x :
  x ∈ l → Some (id x) = i →
  ∃ k y, findIndex i l = Z.of_nat k ∧ l !! k = Some y ∧ Some (id y) = i.
Proof.
  induction l as [|a l IH]; intros Hx Hid; [by apply elem_of_nil in Hx|].
  cbn [findIndex]. destruct (decide (Some (id a) = i)) as [Ha|Ha].
  - by exists O, a.
  - apply elem_of_cons in Hx as [->|Hx]; [done|].
    destruct (IH Hx Hid) as (k & y & -> & Hy & Hyid).
    exists (S k), y. rewrite decide_False by lia. split; [lia | done].
Qed.

Lemma getSection_listed t level x : x ∈ getSection t level → x ∈ listNodes t.
Proof.
  destruct level as [l|]; [|by intros ?%elem_of_nil]. unfold getSection.
  destruct (decide (l < 0)); [by intros ?%elem_of_nil|].
  intros Hx%getSection_at_depth. by eapply at_depth_listed.
Qed.

Lemma elem_of_sections_down r k : ∀ d m,
  m ∈ sections_down r d k
  ↔ ∃ j, (d ≤ j < d + k)%nat ∧ m ∈ getSection_nat r j.
Proof.
  induction k as [|k IH]; intros d m; cbn [sections_down].
  - split; [by intros ?%elem_of_nil | intros (j & ? & _); lia].
  - rewrite elem_of_app, IH. split.
    + intros [H|(j & Hj & H)]; [exists d; split; [lia | done] | exists j; split; [lia | done]].
    + intros (j & Hj & H). destruct (decide (j = d)) as [->|]; [by left|].
      right. exists j. split; [lia | done].
Qed.

(** The position of a node of the tree in the section of its level. *)
Lemma findIndex_in_section t d n :
  wf_tree t → at_depth (root t) d n →
  ∃ idx, findIndex (Some (id n)) (getSection_nat (root t) d) = Z.of_nat idx
         ∧ getSection_nat (root t) d !! idx = Some n.
Proof.
  intros Hwf Hd.
  destruct (findIndex_first (Some (id n)) (getSection_nat (root t) d) n)
    as (k & y & E & Hy & Hid); [by apply getSection_at_depth | done |].
  exists k. split; [done|]. rewrite Hy. f_equal.
  apply (NoDup_ids_inj (listNodes_inner (root t))); [apply Hwf | | | congruence].
  - eapply at_depth_listed. apply getSection_at_depth. by eapply list_elem_of_lookup_2.
  - by eapply at_depth_listed.
Qed.

Lemma levels_le_size r : (levels r ≤ length (listNodes_inner r))%nat.
Proof. unfold levels. pose proof (getHeight_inner_le_size r). lia. Qed.

(** X10: listNodesHorizontally(id, +1) from a node of the tree yields
    the node and the rest of its level in order, then every deeper level
    from its first node to its last, and ends; so every node below the
    start level is yielded. *)
Theorem listNodesHorizontally_forward
    (t : GameTree) (D fuel : nat) (n : Node) (d : nat) :
  wf_tree t → cache_ok t → aliases_within D t →
  at_depth (root t) d n →
  (D + 2 * length (listNodes t) + 2 ≤ fuel)%nat →
  ∃ idx l,
    getSection t (Some (Z.of_nat d)) !! idx = Some n
    ∧ l = drop idx (getSection t (Some (Z.of_nat d)))
          ++ sections_down (root t) (S d) (levels (root t) - S d)
    ∧ yields (listNodesHorizontally fuel (Some (id n)) 1) t (trace_of l)
    ∧ head l = Some n
    ∧ ∀ m level, (d < level)%nat → m ∈ getSection t (Some (Z.of_nat level)) → m ∈ l.
Proof.
  intros Hwf Hc Hal Hd Hf. rewrite getSection_Some_nat.
  destruct (findIndex_in_section t d n Hwf Hd) as (idx & Eidx & Hidx).
  pose proof (at_depth_lt_size D t d n Hwf Hal Hd) as Hdlt.
  pose proof (levels_le_size (root t)) as Hlv. unfold listNodes in *.
  assert (Hdl : (d < levels (root t))%nat).
  { apply levels_spec. intros E. by rewrite E in Hidx. }
  eexists idx, _. split; [done|]. split; [reflexivity|]. split; [|split].
  - unfold listNodesHorizontally. rewrite decide_False by lia.
    eapply yields_gbind.
    { eapply (getLevel_of_node D); [done | done | done | done | done | lia]. }
    intros t' Hs Hc'. exists t'. split; [|split; [apply same_tree_refl | done]].
    pose proof (proj1 Hs) as Hr. rewrite <- Hr in Eidx, Hidx, Hdl, Hf, Hlv |- *.
    f_equal. unfold getSection. rewrite decide_False by lia. rewrite Nat2Z.id, Eidx.
    apply section_loop_down; [done | by eapply lookup_lt_Some | lia].
  - rewrite (drop_S _ _ _ Hidx). done.
  - intros m level Hlt. rewrite getSection_Some_nat. intros Hm.
    apply elem_of_app. right. apply elem_of_sections_down. exists level.
    split; [|done]. assert (level < levels (root t))%nat; [|lia].
    apply levels_spec. intros E. rewrite E in Hm. by apply elem_of_nil in Hm.
Qed.

(** X11: listNodesHorizontally(id, -1) from a node of the tree yields
    the node and the nodes before it in its level, last first, then every
    shallower level from its last node to its first, ending with the
    root. *)
Theorem listNodesHorizontally_backward
    (t : GameTree) (D fuel : nat) (n : Node) (d : nat) :
  wf_tree t → cache_ok t → aliases_within D t →
  at_depth (root t) d n →
  (D + 2 * length (listNodes t) + 3 ≤ fuel)%nat →
  ∃ idx l,
    getSection t (Some (Z.of_nat d)) !! idx = Some n
    ∧ l = reverse (take (S idx) (getSection t (Some (Z.of_nat d))))
          ++ match d with
             | O => []
             | S d' => sections_up (root t) d'
             end
    ∧ yields (listNodesHorizontally fuel (Some (id n)) (-1)) t (trace_of l)
    ∧ head l = Some n
    ∧ last l = Some (root t).
Proof.
  intros Hwf Hc Hal Hd Hf. rewrite getSection_Some_nat.
  destruct (findIndex_in_section t d n Hwf Hd) as (idx & Eidx & Hidx).
  pose proof (at_depth_lt_size D t d n Hwf Hal Hd) as Hdlt.
  unfold listNodes in *.
  assert (Hdl : (d < levels (root t))%nat).
  { apply levels_spec. intros E. by rewrite E in Hidx. }
  eexists idx, _. split; [done|]. split; [reflexivity|]. split; [|split].
  - unfold listNodesHorizontally. rewrite decide_False by lia.
    eapply yields_gbind.
    { eapply (getLevel_of_node D); [done | done | done | done | done | lia]. }
    intros t' Hs Hc'. exists t'. split; [|split; [apply same_tree_refl | done]].
    pose proof (proj1 Hs) as Hr. rewrite <- Hr in Eidx, Hidx, Hdl, Hf, Hdlt |- *.
    f_equal. unfold getSection. rewrite decide_False by lia. rewrite Nat2Z.id, Eidx.
    apply section_loop_up; [done | by eapply lookup_lt_Some | lia].
  - rewrite (take_S_r _ _ _ Hidx), reverse_app. done.
  - destruct d as [|d].
    + rewrite app_nil_r. cbn [getSection_nat] in *.
      destruct idx as [|idx]; [|done]. done.
    + assert (Hup : ∀ k, last (sections_up (root t) k) = Some (root t)).
      { induction k as [|k IHk]; [done|]. cbn [sections_up].
        rewrite last_app, IHk. done. }
      by rewrite last_app, Hup.
Qed.

(** Every identifier has a level the walk can start from. *)
Lemma getLevel_returns D t f i :
  wf_tree t → cache_ok t → aliases_within D t →
  (D + length (listNodes t) + 1 < f)%nat →
  ∃ level, returns (getLevel f i) t (Ok level).
Proof.
  intros Hwf Hc Hal Hf. destruct (lookup_node D t i) as [n|] eqn:Hi.
  - destruct (listed_at_depth _ _ (lookup_node_listed _ _ _ _ Hi)) as (d & Hd & Hlt).
    unfold listNodes in Hf.
    destruct (decide (i = Some (id (root t)))) as [Hroot|Hne].
    { eexists. apply (getLevel_depth D t f i n d); [done | done | done | done | done | done | lia]. }
    destruct (Node_eqb n (root t)) eqn:E.
    + apply Node_eqb_eq in E as ->. eexists.
      apply (getLevel_root_alias D); [done | done | done | done | done | lia].
    + eexists. apply (getLevel_depth D t f i n d); [done | done | done | done | done | | lia].
      intros ->. by rewrite Node_eqb_refl in E.
  - eexists. apply (getLevel_absent D); [done | done | done | lia | done].
Qed.

(** X12: listNodesHorizontally starts only from the identifier a node
    carries: for a start id that no node of the tree has it yields
    nothing, also when the id is a stale one that get resolves to a node
    through the alias table. *)
Theorem listNodesHorizontally_needs_own_id
    (t : GameTree) (D fuel : nat) (startId : option Z) (step : Z) :
  wf_tree t → cache_ok t → aliases_within D t →
  (D + length (listNodes t) + 1 < fuel)%nat →
  step = 1 ∨ step = -1 →
  (∀ y, y ∈ listNodes t → Some (id y) ≠ startId) →
  yields (listNodesHorizontally fuel startId step) t Done.
Proof.
  intros Hwf Hc Hal Hf Hstep Hnone. unfold listNodesHorizontally.
  rewrite decide_False by lia.
  destruct (getLevel_returns D t fuel startId Hwf Hc Hal Hf) as (level & Hl).
  eapply yields_gbind; [exact Hl|].
  intros t' Hs Hc'. exists t'. split; [|split; [apply same_tree_refl | done]].
  f_equal. rewrite findIndex_none.
  - destruct fuel as [|fuel]; [lia|]. cbn [section_loop]. by rewrite at_index_neg.
  - intros y Hy. apply Hnone. apply getSection_listed in Hy.
    unfold listNodes in *. by rewrite <- (proj1 Hs).
Qed.

(** ** mutate with a change *)

Lemma alloc_fresh (c : Heap.cell) (h : Heap.heap) :
  h !! fst (Heap.alloc c h) = None
  ∧ snd (Heap.alloc c h) = <[fst (Heap.alloc c h) := c]> h.
Proof.
  unfold Heap.alloc. cbn [fst snd]. split; [|done].
  apply not_elem_of_dom. apply is_fresh.
Qed.

(** X13: when the callback leaves the draft with another root object (a
    complete node), mutate returns a tree object that did not exist
    before, different from the original; no object that existed is
    changed, the original tree among them; the new tree takes getId and
    merger from the original, the root, alias table, height and hash
    caches from the draft, and the draft's node index only if the draft's
    flag says so, else a new empty one. *)
Theorem mutate_with_change_builds_new_instance
    (Draft_new : Heap.ref → Heap.heap → Heap.ref * Heap.heap)
    (call_getId : Heap.ref → Heap.heap → option Z * Heap.heap)
    (this : Heap.ref) (mutator : Heap.ref → Heap.heap → Heap.heap)
    (h : Heap.heap) (d : Heap.DraftObj) (self : Heap.GameTreeObj)
    (i : Z) (payload kids : Heap.ref) (p : option Z) :
  let draft := fst (Draft_new this h) in
  let h' := mutator draft (snd (Draft_new this h)) in
  h' !! draft = Some (Heap.CDraft d) →
  h' !! this = Some (Heap.CTree self) →
  Heap.draft_root d ≠ Heap.root self →
  h' !! Heap.draft_root d
    = Some (Heap.CNode (Heap.mkNodeObj (Some i) (Some payload) p (Some kids))) →
  ∃ tree h'' cache,
    Heap.mutate Draft_new call_getId this mutator h = Some (tree, h'')
    ∧ h' !! tree = None
    ∧ tree ≠ this
    ∧ (∀ r, is_Some (h' !! r) → h'' !! r = h' !! r)
    ∧ h'' !! tree
      = Some (Heap.CTree
                (Heap.mkGameTreeObj (Heap.getId self) (Heap.merger self)
                   (Heap.draft_root d) cache (Heap.draft_idAliases d)
                   (Heap.draft_heightCache d) (Heap.draft_structureHashCache d)))
    ∧ (if Heap._passOnNodeCache d then cache = Heap.draft_nodeCache d
       else h' !! cache = None ∧ h'' !! cache = Some Heap.CObject).
Proof.
  intros draft h' Hd Ht Hroot Hn.
  unfold Heap.mutate. destruct (Draft_new this h) as [dr h1] eqn:E.
  cbn [fst snd] in *. subst draft. fold h'. rewrite Hd, Ht.
  rewrite decide_False by done. unfold Heap.GameTree_new. rewrite Hn.
  cbn [Heap.id Heap.data Heap.children Heap.parentId].
  rewrite (insert_id h' _ _ Hn).
  destruct (alloc_fresh Heap.CObject h') as [F1 E1].
  destruct (Heap.alloc Heap.CObject h') as [r1 h2]. cbn [fst snd] in *. subst h2.
  destruct (alloc_fresh Heap.CObject (<[r1 := Heap.CObject]> h')) as [F2 E2].
  destruct (Heap.alloc Heap.CObject (<[r1 := Heap.CObject]> h')) as [r2 h3].
  cbn [fst snd] in *. subst h3.
  set (o := Heap.mkGameTreeObj (Heap.getId self) (Heap.merger self)
              (Heap.draft_root d) r1 r2 None None).
  destruct (alloc_fresh (Heap.CTree o)
              (<[r2 := Heap.CObject]> (<[r1 := Heap.CObject]> h'))) as [F3 E3].
  destruct (Heap.alloc (Heap.CTree o)
              (<[r2 := Heap.CObject]> (<[r1 := Heap.CObject]> h'))) as [r3 h4].
  cbn [fst snd] in *. subst h4.
  apply lookup_insert_None in F2 as [F2 N21].
  apply lookup_insert_None in F3 as [F3 N32].
  apply lookup_insert_None in F3 as [F3 N31].
  unfold Heap.heap, Heap.ref in *.
  eexists r3, _, _. rewrite lookup_insert_eq. split; [reflexivity|].
  split; [done|]. split; [by intros ->; rewrite Ht in F3|]. split; [|split].
  - intros r [c Hr]. rewrite !lookup_insert_ne; [done | | | |]; intros ->; congruence.
  - rewrite lookup_insert_eq. done.
  - cbn [Heap._nodeCache o]. destruct (Heap._passOnNodeCache d); [done|].
    split; [done|]. rewrite !lookup_insert_ne by done. by rewrite lookup_insert_eq.
Qed.

(** ** The constructor completes the root *)


(** ** Steps of navigate add up *)

Lemma descend_add D t c a : ∀ b n,
  descend D t c (a + b) n
  = match descend D t c a n with
    | Some m => descend D t c b m
    | None => None
    end.
Proof.
  induction a as [|a IH]; intros b n; [done|]. cbn [Nat.add descend].
  destruct (next_node D t c n) as [x|]; [apply IH | done].
Qed.

Lemma ancestor_add r a : ∀ b n,
  ancestor r (a + b) n
  = match ancestor r a n with
    | Some m => ancestor r b m
    | None => None
    end.
Proof.
  induction a as [|a IH]; intros b n; [done|]. cbn [Nat.add ancestor].
  destruct (parent_in r n) as [x|]; [apply IH | done].
Qed.

Lemma descend_listed D t c k : ∀ n m,
  n ∈ listNodes_inner (root t) → descend D t c k n = Some m →
  m ∈ listNodes_inner (root t).
Proof.
  induction k as [|k IH]; intros n m Hn; cbn [descend]; [by intros [= <-]|].
  unfold next_node. destruct (c !! id n) as [sel|].
  - destruct (lookup_node D t (Some sel)) as [x|] eqn:E; [|done].
    apply IH. by eapply lookup_node_listed.
  - destruct (children n) as [|x xs] eqn:E; [done|]. cbn [head].
    apply IH. eapply children_listed; [done|]. rewrite E. apply list_elem_of_here.
Qed.

Lemma ancestor_listed t k : ∀ n m,
  wf_tree t → n ∈ listNodes_inner (root t) → ancestor (root t) k n = Some m →
  m ∈ listNodes_inner (root t).
Proof.
  induction k as [|k IH]; intros n m Hwf Hn; cbn [ancestor]; [by intros [= <-]|].
  destruct (parent_cases t n Hwf Hn) as [(_ & _ & ->)|(q & Hq & _ & _ & ->)]; [done|].
  by apply IH.
Qed.

(** X15: steps of navigate in one direction add up: a steps and then b
    more steps from the node reached give what a + b steps give at once,
    downwards (for any currents) and upwards; and when the first walk
    finds nothing, so does the longer one. *)
Theorem navigate_steps_add_up
    (t : GameTree) (D fuel : nat) (i : option Z) (a b : Z)
    (currents : gmap Z Z) (r : option Node) (t1 : GameTree) :
  wf_tree t → cache_ok t → aliases_within D t →
  0 ≤ a → 0 ≤ b → (D + Z.to_nat (a + b) < fuel)%nat →
  (navigate fuel i a (Some currents) t = (Ok r, t1) →
     fst (navigate fuel i (a + b) (Some currents) t)
     = match r with
       | Some m => fst (navigate fuel (Some (id m)) b (Some currents) t1)
       | None => Ok None
       end)
  ∧ (navigate fuel i (- a) (Some currents) t = (Ok r, t1) →
     fst (navigate fuel i (- (a + b)) (Some currents) t)
     = match r with
       | Some m => fst (navigate fuel (Some (id m)) (- b) (Some currents) t1)
       | None => Ok None
       end).
Proof.
  intros Hwf Hc Hal Ha Hb Hf.
  assert (Hab : Z.to_nat (a + b) = (Z.to_nat a + Z.to_nat b)%nat) by lia.
  split; intros E.
  - destruct (navigate_down D currents (Z.to_nat a) t fuel i Hwf Hc Hal)
      as (t' & E' & Hs & Hc'); [lia|].
    rewrite Z2Nat.id, E in E' by done. injection E' as -> ->.
    destruct (navigate_down D currents (Z.to_nat (a + b)) t fuel i Hwf Hc Hal)
      as (t2 & E2 & _); [lia|].
    rewrite Z2Nat.id in E2 by lia. rewrite E2. cbn [fst].
    destruct (lookup_node D t i) as [n|] eqn:Hi; [|done].
    rewrite Hab, descend_add.
    destruct (descend D t currents (Z.to_nat a) n) as [m|] eqn:Em; [|done].
    assert (Hwf' : wf_tree t') by (by eapply same_tree_wf).
    destruct (navigate_down D currents (Z.to_nat b) t' fuel (Some (id m)) Hwf' Hc'
                (same_tree_aliases_within _ _ _ Hs Hal)) as (t3 & E3 & _); [lia|].
    rewrite Z2Nat.id in E3 by done. rewrite E3. cbn [fst].
    rewrite lookup_listed.
    + by rewrite (same_tree_descend _ _ _ _ _ _ Hs).
    + done.
    + rewrite (proj1 Hs). eapply descend_listed; [|done]. by eapply lookup_node_listed.
  - destruct (navigate_up D t (Z.to_nat a) fuel i (Some currents) Hwf Hc Hal)
      as (t' & E' & Hs & Hc'); [lia|].
    rewrite Z2Nat.id, E in E' by done. injection E' as -> ->.
    destruct (navigate_up D t (Z.to_nat (a + b)) fuel i (Some currents) Hwf Hc Hal)
      as (t2 & E2 & _); [lia|].
    rewrite Z2Nat.id in E2 by lia. rewrite E2. cbn [fst].
    destruct (lookup_node D t i) as [n|] eqn:Hi; [|done].
    rewrite Hab, ancestor_add.
    destruct (ancestor (root t) (Z.to_nat a) n) as [m|] eqn:Em; [|done].
    assert (Hwf' : wf_tree t') by (by eapply same_tree_wf).
    destruct (navigate_up D t' (Z.to_nat b) fuel (Some (id m)) (Some currents) Hwf' Hc'
                (same_tree_aliases_within _ _ _ Hs Hal)) as (t3 & E3 & _); [lia|].
    rewrite Z2Nat.id in E3 by done. rewrite E3. cbn [fst].
    rewrite lookup_listed.
    + by rewrite (proj1 Hs).
    + done.
    + rewrite (proj1 Hs). eapply ancestor_listed; [done | | done].
      by eapply lookup_node_listed.
Qed.

(** ** The further theorems at work on the scenario *)

Lemma scenario_listed (n : Node) :
  n ∈ listNodes_inner node_R → n = node_R ∨ n = node_A ∨ n = node_C ∨ n = node_B.
Proof.
  change (listNodes_inner node_R) with [node_R; node_A; node_C; node_B].
  intros H. repeat (apply elem_of_cons in H as [H|H]; [tauto|]).
  by apply elem_of_nil in H.
Qed.

(** In the scenario, the selection of B at the root is a valid one. *)
Lemma scenario_currents_ok (al : gmap Z Z) :
  currents_ok (mkGameTree node_R ∅ al None None) {[0 := 2]}.
Proof.
  intros n sel Hn Hsel. apply scenario_listed in Hn as [-> | [-> | [-> | ->]]];
    vm_compute in Hsel; try discriminate Hsel.
  injection Hsel as <-. exists node_B.
  split; [|done]. apply elem_of_cons. right. apply list_elem_of_here.
Qed.

Lemma scenario_depth_A : at_depth node_R 1 node_A.
Proof. eapply at_depth_child; [apply at_depth_root | apply list_elem_of_here]. Qed.

Lemma scenario_depth_C : at_depth node_R 2 node_C.
Proof. eapply at_depth_child; [apply scenario_depth_A | apply list_elem_of_here]. Qed.

Lemma scenario_C_listed : node_C ∈ listNodes scenario.
Proof. eapply at_depth_listed. apply scenario_depth_C. Qed.

Lemma listNodes_get_round_trip_witness :
  wf_tree scenario ∧ cache_ok scenario ∧ aliases_within 0 scenario
  ∧ returns (get 0 (Some (id node_C))) scenario (Ok (Some node_C)).
Proof.
  split; [apply scenario_wf|]. split; [apply cache_ok_new|].
  split; [apply scenario_aliases_within|].
  destruct (listNodes_get_round_trip scenario 0 0 scenario_wf (cache_ok_new node_R)
              scenario_aliases_within) as (_ & _ & H & _); [lia|].
  apply H. apply scenario_C_listed.
Defined.

Lemma get_memoises_witness :
  resolve 1 (_idAliases scenario_alias) 7 = Some 1
  ∧ _nodeCache (snd (get 1 (Some 7) scenario_alias)) !! 1
    = Some (find_node 1 (root scenario_alias)).
Proof.
  assert (Hr : resolve 1 (_idAliases scenario_alias) 7 = Some 1) by (by vm_compute).
  split; [exact Hr|].
  refine (proj1 (proj2 (get_memoises scenario_alias 1 7 1
                          (fst (get 1 (Some 7) scenario_alias))
                          (snd (get 1 (Some 7) scenario_alias)) _ _ Hr _))).
  - apply scenario_alias_wf.
  - apply cache_ok_new.
  - apply surjective_pairing.
Defined.

Lemma sections_partition_by_level_witness :
  node_C ∈ getSection scenario (Some 2)
  ∧ returns (getLevel 5 (Some (id node_C))) scenario (Ok (Some 2)).
Proof.
  assert (Hin : node_C ∈ getSection scenario (Some 2))
    by apply (proj2 (getSection_at_depth node_R 2 node_C) scenario_depth_C).
  split; [exact Hin|].
  destruct (sections_partition_by_level scenario 0 5 scenario_wf (cache_ok_new node_R)
              scenario_aliases_within) as (_ & _ & _ & H & _); [vm_compute; lia|].
  exact (proj2 (H node_C 2 Hin)).
Defined.

Lemma getHeight_counts_levels_witness :
  height_cache_ok scenario
  ∧ ∃ h t', getHeight scenario = (Ok h, t') ∧ getHeight t' = (Ok h, t').
Proof.
  assert (Hok : height_cache_ok scenario) by (intros h H; discriminate H).
  split; [exact Hok|].
  destruct (getHeight_counts_levels scenario Hok) as (h & t' & E & _ & _ & E' & _).
  exists h, t'. split; [exact E | exact E'].
Defined.

Lemma getCurrentHeight_counts_current_line_witness :
  currents_ok scenario {[0 := 2]}
  ∧ Z.of_nat (length (yielded (fst (listCurrentNodes 6 (Some {[0 := 2]}) scenario))))
    = getCurrentHeight {[0 := 2]} scenario.
Proof.
  split; [apply scenario_currents_ok|].
  refine (proj2 (proj2 (getCurrentHeight_counts_current_line scenario 0 6 {[0 := 2]}
                          scenario_wf (cache_ok_new node_R) scenario_aliases_within
                          (scenario_currents_ok ∅) _))).
  vm_compute. lia.
Defined.

Lemma onCurrentLine_iff_on_listCurrentNodes_witness :
  lookup_node 0 scenario (Some 2) = Some node_B
  ∧ ∃ b, returns (onCurrentLine 6 (Some 2) {[0 := 2]}) scenario (Ok b)
         ∧ (b = true
            ↔ node_B ∈ yielded (fst (listCurrentNodes 6 (Some {[0 := 2]}) scenario))).
Proof.
  assert (Hi : lookup_node 0 scenario (Some 2) = Some node_B) by (by vm_compute).
  split; [exact Hi|].
  apply (onCurrentLine_iff_on_listCurrentNodes scenario 0 6 (Some 2) {[0 := 2]} node_B
           scenario_wf (cache_ok_new node_R) scenario_aliases_within
           (scenario_currents_ok ∅)); [vm_compute; lia | exact Hi].
Defined.

Lemma listNodesVertically_up_is_path_to_root_witness :
  lookup_node 0 scenario (Some 3) = Some node_C
  ∧ ∃ l, yields (listNodesVertically 5 (Some 3) (-1) None) scenario (trace_of l)
         ∧ length l = 3%nat ∧ last l = Some node_R.
Proof.
  assert (Hi : lookup_node 0 scenario (Some 3) = Some node_C) by (by vm_compute).
  split; [exact Hi|].
  destruct (listNodesVertically_up_is_path_to_root scenario 0 5 (Some 3) None node_C 2
              scenario_wf (cache_ok_new node_R) scenario_aliases_within Hi
              scenario_depth_C) as (l & Hy & Hlen & _ & _ & Hlast); [lia|].
  exists l. split; [exact Hy|]. split; [exact Hlen | exact Hlast].
Defined.

Lemma navigate_down_then_up_returns_witness :
  navigate 4 (Some 0) 2 (Some ∅) scenario
    = (Ok (Some node_C), snd (navigate 4 (Some 0) 2 (Some ∅) scenario))
  ∧ returns (navigate 4 (Some (id node_C)) (- 2) None)
      (snd (navigate 4 (Some 0) 2 (Some ∅) scenario)) (Ok (Some node_R)).
Proof.
  assert (E : navigate 4 (Some 0) 2 (Some ∅) scenario
              = (Ok (Some node_C), snd (navigate 4 (Some 0) 2 (Some ∅) scenario))).
  { rewrite (surjective_pairing (navigate 4 (Some 0) 2 (Some ∅) scenario)) at 1.
    f_equal. }
  split; [exact E|].
  apply (navigate_down_then_up_returns scenario 0 4 (Some 0) 2 ∅ None node_R node_C _
           scenario_wf (cache_ok_new node_R) scenario_aliases_within).
  - intros n sel _ H. by rewrite lookup_empty in H.
  - done.
  - lia.
  - simpl. lia.
  - exact E.
Defined.

Lemma navigate_up_by_level_reaches_root_witness :
  getLevel 6 (Some (id node_C)) scenario
    = (Ok (Some 2), snd (getLevel 6 (Some (id node_C)) scenario))
  ∧ returns (navigate 6 (Some (id node_C)) (- 2) None)
      (snd (getLevel 6 (Some (id node_C)) scenario)) (Ok (Some (root scenario))).
Proof.
  assert (E : getLevel 6 (Some (id node_C)) scenario
              = (Ok (Some 2), snd (getLevel 6 (Some (id node_C)) scenario))).
  { rewrite (surjective_pairing (getLevel 6 (Some (id node_C)) scenario)) at 1.
    f_equal. }
  split; [exact E|].
  refine (proj1 (proj2 (navigate_up_by_level_reaches_root scenario 0 6 node_C None 2 _
                          scenario_wf (cache_ok_new node_R) scenario_aliases_within
                          _ _ E))).
  - vm_compute. lia.
  - apply scenario_C_listed.
Defined.

Lemma listNodesHorizontally_forward_witness :
  at_depth (root scenario) 1 node_A
  ∧ ∃ l, yields (listNodesHorizontally 10 (Some (id node_A)) 1) scenario (trace_of l)
         ∧ head l = Some node_A.
Proof.
  split; [apply scenario_depth_A|].
  destruct (listNodesHorizontally_forward scenario 0 10 node_A 1
              scenario_wf (cache_ok_new node_R) scenario_aliases_within
              scenario_depth_A) as (idx & l & _ & _ & Hy & Hh & _); [vm_compute; lia|].
  exists l. split; [exact Hy | exact Hh].
Defined.

Lemma listNodesHorizontally_backward_witness :
  at_depth (root scenario) 1 node_A
  ∧ ∃ l, yields (listNodesHorizontally 11 (Some (id node_A)) (-1)) scenario (trace_of l)
         ∧ last l = Some (root scenario).
Proof.
  split; [apply scenario_depth_A|].
  destruct (listNodesHorizontally_backward scenario 0 11 node_A 1
              scenario_wf (cache_ok_new node_R) scenario_aliases_within
              scenario_depth_A) as (idx & l & _ & _ & Hy & _ & Hl); [vm_compute; lia|].
  exists l. split; [exact Hy | exact Hl].
Defined.

Lemma listNodesHorizontally_needs_own_id_witness :
  lookup_node 1 scenario_alias (Some 7) = Some node_A
  ∧ yields (listNodesHorizontally 8 (Some 7) 1) scenario_alias Done.
Proof.
  split; [by vm_compute|].
  apply (listNodesHorizontally_needs_own_id scenario_alias 1 8 (Some 7) 1
           scenario_alias_wf (cache_ok_new node_R)
           (singleton_aliases_within node_R 7 1 ltac:(done))).
  - vm_compute. lia.
  - by left.
  - intros y Hy. apply scenario_listed in Hy as [-> | [-> | [-> | ->]]]; by vm_compute.
Defined.

Lemma mutate_with_change_builds_new_instance_witness :
  ∃ tree h'' cache,
    Heap.mutate Heap.sample_Draft_new Heap.sample_getId 1%positive
      sample_new_root Heap.sample_heap = Some (tree, h'')
    ∧ tree ≠ 1%positive
    ∧ h'' !! tree
      = Some (Heap.CTree
                (Heap.mkGameTreeObj 5%positive 6%positive 13%positive cache
                   4%positive None None)).
Proof.
  destruct (mutate_with_change_builds_new_instance
              Heap.sample_Draft_new Heap.sample_getId 1%positive sample_new_root
              Heap.sample_heap
              (Heap.mkDraftObj 13%positive false 9%positive 4%positive None None)
              (Heap.mkGameTreeObj 5%positive 6%positive 2%positive 3%positive
                 4%positive (Some 1) None)
              9 11%positive 12%positive None)
    as (tree & h'' & cache & E & _ & Hne & _ & Ht & _).
  - by vm_compute.
  - by vm_compute.
  - done.
  - by vm_compute.
  - exists tree, h'', cache. split; [exact E|]. split; [exact Hne | exact Ht].
Defined.


Lemma navigate_steps_add_up_witness :
  navigate 4 (Some 0) 1 (Some ∅) scenario
    = (Ok (Some node_A), snd (navigate 4 (Some 0) 1 (Some ∅) scenario))
  ∧ fst (navigate 4 (Some 0) (1 + 1) (Some ∅) scenario)
    = fst (navigate 4 (Some (id node_A)) 1 (Some ∅)
             (snd (navigate 4 (Some 0) 1 (Some ∅) scenario))).
Proof.
  assert (E : navigate 4 (Some 0) 1 (Some ∅) scenario
              = (Ok (Some node_A), snd (navigate 4 (Some 0) 1 (Some ∅) scenario))).
  { rewrite (surjective_pairing (navigate 4 (Some 0) 1 (Some ∅) scenario)) at 1.
    f_equal. }
  split; [exact E|].
  destruct (navigate_steps_add_up scenario 0 4 (Some 0) 1 1 ∅ (Some node_A)
              (snd (navigate 4 (Some 0) 1 (Some ∅) scenario))
              scenario_wf (cache_ok_new node_R) scenario_aliases_within)
    as [H _]; [lia | lia | simpl; lia |].
  exact (H E).
Defined.

(** ** Reading leaves the tree as it is *)

Lemma index_grown_refl t : cache_ok t → index_grown t t.
Proof. intros Hc. split; [apply same_tree_refl | done]. Qed.

Lemma touches_pure {A} (a : A) : touches_only_index (λ t, (a, t)).
Proof. intros t _ Hc. by apply index_grown_refl. Qed.

Lemma touches_get f i : touches_only_index (get f i).
Proof.
  intros t Hnd Hc. destruct (get_returns f i t Hnd Hc) as (t' & -> & Hs & Hc').
  by split.
Qed.

Lemma touches_then {A B} (m : GameTree → A * GameTree)
    (k : A → GameTree → B * GameTree) :
  touches_only_index m → (∀ a, touches_only_index (k a)) →
  touches_only_index (λ t, let '(a, t') := m t in k a t').
Proof.
  intros Hm Hk t Hnd Hc. destruct (Hm t Hnd Hc) as [Hs Hc'].
  destruct (m t) as [a t']. cbn [snd] in *.
  destruct (Hk a t') as [Hs' Hc'']; [by rewrite (proj1 Hs) | done |].
  split; [by eapply same_tree_trans | done].
Qed.

Lemma touches_bind {A B} (m : M A) (k : A → M B) :
  touches_only_index m → (∀ a, touches_only_index (k a)) →
  touches_only_index (bind m k).
Proof.
  intros Hm Hk t Hnd Hc. destruct (Hm t Hnd Hc) as [Hs Hc']. unfold bind.
  destruct (m t) as [[a|e|] t']; cbn [snd] in *; [|by split | by split].
  destruct (Hk a t') as [Hs' Hc'']; [by rewrite (proj1 Hs) | done |].
  split; [by eapply same_tree_trans | done].
Qed.

Lemma touches_gbind {A} (m : M A) (k : A → G) :
  touches_only_index m → (∀ a, touches_only_index (k a)) →
  touches_only_index (gbind m k).
Proof.
  intros Hm Hk t Hnd Hc. destruct (Hm t Hnd Hc) as [Hs Hc']. unfold gbind.
  destruct (m t) as [[a|e|] t']; cbn [snd] in *; [|by split | by split].
  destruct (Hk a t') as [Hs' Hc'']; [by rewrite (proj1 Hs) | done |].
  split; [by eapply same_tree_trans | done].
Qed.

Lemma touches_yield_then n (g : G) :
  touches_only_index g → touches_only_index (yield_then n g).
Proof.
  intros Hg t Hnd Hc. specialize (Hg t Hnd Hc). unfold yield_then.
  by destruct (g t).
Qed.

Lemma touches_navigate f : ∀ i step cur, touches_only_index (navigate f i step cur).
Proof.
  induction f as [|f IH]; intros i step cur; [apply touches_pure|].
  cbn [navigate]. apply touches_bind; [apply touches_get|].
  intros [node|]; [|apply touches_pure].
  destruct (decide (step = 0)); [apply touches_pure|].
  destruct (decide (step < 0)); [apply IH|].
  destruct cur as [c|]; [|apply touches_pure].
  destruct (match c !! id node with Some _ => _ | None => _ end);
    [apply IH | apply touches_pure].
Qed.

Lemma touches_getLevel f : ∀ i, touches_only_index (getLevel f i).
Proof.
  induction f as [|f IH]; intros i; [apply touches_pure|].
  intros t Hnd Hc. rewrite getLevel_unfold.
  destruct (decide (i = Some (id (root t)))) as [|_]; [by apply index_grown_refl|].
  revert t Hnd Hc. apply touches_bind; [apply touches_get|].
  intros [node|]; [|apply touches_pure].
  apply touches_bind; [apply IH | intros l; apply touches_pure].
Qed.

Lemma touches_getSequence f : ∀ i, touches_only_index (getSequence f i).
Proof.
  induction f as [|f IH]; intros i; [apply touches_pure|].
  cbn [getSequence]. apply touches_gbind; [apply touches_get|].
  intros [node|]; [|apply touches_pure]. apply touches_yield_then.
  destruct (children node) as [|c [|c2 cs]]; [apply touches_pure | apply IH | apply touches_pure].
Qed.

Lemma touches_vertical_loop f : ∀ node step cur,
  touches_only_index (vertical_loop f node step cur).
Proof.
  induction f as [|f IH]; intros node step cur; [apply touches_pure|].
  cbn [vertical_loop]. destruct node as [node|]; [|apply touches_pure].
  apply touches_yield_then, touches_gbind; [apply touches_navigate | intros next; apply IH].
Qed.

Lemma touches_onCurrentLine f : ∀ i c, touches_only_index (onCurrentLine f i c).
Proof.
  induction f as [|f IH]; intros i c; [apply touches_pure|].
  cbn [onCurrentLine]. apply touches_bind; [apply touches_get|].
  intros [node|]; [|apply touches_pure].
  destruct (parentId node) as [pid|]; [|apply touches_pure].
  apply touches_bind.
  - destruct (c !! pid); [apply touches_pure|].
    apply touches_bind; [apply touches_get|].
    intros [parent|]; apply touches_pure.
  - intros [|]; [apply IH | apply touches_pure].
Qed.

(** X16: no read operation changes the tree: after get, navigate,
    getLevel, getSequence, listNodesVertically, listNodesHorizontally or
    onCurrentLine, with any arguments and whatever the outcome (a result,
    an error, or a run cut short), the root, the alias table and the
    memoised height and hash are the same, and the node index is still
    consistent with the tree. *)
Theorem reads_touch_only_the_index
    (t : GameTree) (fuel : nat) (i : option Z) (step : Z)
    (cur : option (gmap Z Z)) (currents : gmap Z Z) :
  NoDup (ids (root t)) → cache_ok t →
  index_grown t (snd (get fuel i t))
  ∧ index_grown t (snd (navigate fuel i step cur t))
  ∧ index_grown t (snd (getLevel fuel i t))
  ∧ index_grown t (snd (getSequence fuel i t))
  ∧ index_grown t (snd (listNodesVertically fuel i step cur t))
  ∧ index_grown t (snd (listNodesHorizontally fuel i step t))
  ∧ index_grown t (snd (onCurrentLine fuel i currents t)).
Proof.
  intros Hnd Hc.
  split; [by apply touches_get|]. split; [by apply touches_navigate|].
  split; [by apply touches_getLevel|]. split; [by apply touches_getSequence|].
  split; [|split; [|by apply touches_onCurrentLine]].
  - unfold listNodesVertically. destruct (decide (Z.abs step ≠ 1)).
    + by apply index_grown_refl.
    + apply (touches_gbind (get fuel i)); [apply touches_get | | done | done].
      intros node. apply touches_vertical_loop.
  - unfold listNodesHorizontally. destruct (decide (Z.abs step ≠ 1)).
    + by apply index_grown_refl.
    + apply (touches_gbind (getLevel fuel i)); [apply touches_getLevel | | done | done].
      intros level t' _ Hc'. by apply index_grown_refl.
Qed.

Lemma reads_touch_only_the_index_witness :
  NoDup (ids (root scenario)) ∧ cache_ok scenario
  ∧ index_grown scenario (snd (onCurrentLine 5 (Some 99) ∅ scenario)).
Proof.
  assert (H1 : NoDup (ids (root scenario))) by apply scenario_wf.
  split; [exact H1|]. split; [apply cache_ok_new|].
  refine (proj2 (proj2 (proj2 (proj2 (proj2 (proj2
            (reads_touch_only_the_index scenario 5 (Some 99) 1 None ∅ H1
               (cache_ok_new node_R)))))))).
Defined.

